(** * GTFS bus-routes backend: the in-memory index and its join query

    A shallow embedding of [src/index.js]: the five keyed collections of
    [gtfsData], the loader [loadGTFSData] with its key derivation
    [getPrimaryKey], the three request handlers and [initializeServer],
    followed by the properties of the specification that were checked
    against them. *)

From Stdlib Require Import Ascii String.
From stdpp Require Import gmap strings list fin_maps.

Local Open Scope string_scope.

(** ** JavaScript values used by the program *)

Module Js.

(** A property read [row.name] yields a string or [undefined]; the
    [default] arm of [getPrimaryKey] yields [null].  Both are falsy and
    neither is ever stored, so one constructor stands for the two. *)
Definition value := option string.

(** [if (v)]: [undefined], [null] and the empty string are falsy, every
    other string is truthy. *)
Definition truthy (v : value) : bool :=
  match v with
  | Some s => negb (String.eqb s "")
  | None => false
  end.

(** Interpolation [`${v}`] in a template literal. *)
Definition to_string (v : value) : string :=
  match v with
  | Some s => s
  | None => "undefined"
  end.

(** Strict equality [a === b] on strings and [undefined]. *)
Definition strict_eq (a b : value) : bool := bool_decide (a = b).

End Js.

(** ** Rows *)

(** The object that the CSV reader builds for one data line: a mapping from
    header names to cell texts.  A cell missing at the end of a short line
    leaves its header unset. *)
Abbreviation Fields := (gmap string string).

(** Objects have an identity besides their contents: a [Set] of objects
    compares references.  The reader creates one fresh object per data
    line, named here by the file it was read from and the line's index. *)
Definition Ref : Type := string * nat.

Record Row := mkRow { row_ref : Ref; row_fields : Fields }.

#[global] Instance Row_eq_dec : EqDecision Row.
Proof. solve_decision. Defined.

(** [row.name] *)
Definition field (name : string) (r : Row) : Js.value := row_fields r !! name.

Definition route_id := field "route_id".
Definition stop_id := field "stop_id".
Definition trip_id := field "trip_id".
Definition stop_sequence := field "stop_sequence".
Definition service_id := field "service_id".

(** ** The collections: JavaScript [Map]s

    A [Map] iterates in insertion order, and [set] on a key that is
    already present replaces the value where it stands.  Keys are the
    truthy strings the loader derives. *)
Module JsMap.

Definition t := list (string * Row).

Definition empty : t := [].

Fixpoint set (k : string) (v : Row) (m : t) : t :=
  match m with
  | [] => [(k, v)]
  | (k', v') :: m' =>
      if decide (k' = k) then (k, v) :: m' else (k', v') :: set k v m'
  end.

Fixpoint get (k : string) (m : t) : option Row :=
  match m with
  | [] => None
  | (k', v') :: m' => if decide (k' = k) then Some v' else get k m'
  end.

(** [m.get(v)] for a key that may be [undefined]: no entry has such a
    key. *)
Definition get_value (v : Js.value) (m : t) : option Row :=
  match v with
  | Some k => get k m
  | None => None
  end.

Definition keys (m : t) : list string := m.*1.

(** [Array.from(m.values())] *)
Definition values (m : t) : list Row := m.*2.

End JsMap.

(** ** The record store [gtfsData] *)

Inductive DataKey := routes | stops | trips | stop_times | calendar.

#[global] Instance DataKey_eq_dec : EqDecision DataKey.
Proof. solve_decision. Defined.

Record Store := mkStore {
  st_routes : JsMap.t;
  st_stops : JsMap.t;
  st_trips : JsMap.t;
  st_stop_times : JsMap.t;
  st_calendar : JsMap.t;
}.

Definition gtfsData0 : Store :=
  mkStore JsMap.empty JsMap.empty JsMap.empty JsMap.empty JsMap.empty.

(** [gtfsData[dataKey]] *)
Definition collection (d : DataKey) (s : Store) : JsMap.t :=
  match d with
  | routes => st_routes s
  | stops => st_stops s
  | trips => st_trips s
  | stop_times => st_stop_times s
  | calendar => st_calendar s
  end.

Definition with_collection (d : DataKey) (m : JsMap.t) (s : Store) : Store :=
  match d with
  | routes => mkStore m (st_stops s) (st_trips s) (st_stop_times s) (st_calendar s)
  | stops => mkStore (st_routes s) m (st_trips s) (st_stop_times s) (st_calendar s)
  | trips => mkStore (st_routes s) (st_stops s) m (st_stop_times s) (st_calendar s)
  | stop_times => mkStore (st_routes s) (st_stops s) (st_trips s) m (st_calendar s)
  | calendar => mkStore (st_routes s) (st_stops s) (st_trips s) (st_stop_times s) m
  end.

(** [fileMapping], in the order [Object.entries] lists it. *)
Definition fileMapping : list (string * DataKey) :=
  [ ("routes.txt", routes);
    ("stops.txt", stops);
    ("trips.txt", trips);
    ("stop_times.txt", stop_times);
    ("calendar.txt", calendar) ].

(** ** Key derivation *)

(** [getPrimaryKey], index.js lines 70 to 85.  The [switch] on the file
    name is a chain of tests; the template literal of the stop times
    renders an unset field as the text "undefined". *)
Definition getPrimaryKey (fileName : string) (row : Row) : Js.value :=
  if decide (fileName = "routes.txt") then route_id row
  else if decide (fileName = "stops.txt") then stop_id row
  else if decide (fileName = "trips.txt") then trip_id row
  else if decide (fileName = "stop_times.txt") then
    Some (Js.to_string (trip_id row) +:+ "_" +:+ Js.to_string (stop_sequence row))
  else if decide (fileName = "calendar.txt") then service_id row
  else None.

(** The ["data"] handler of the loader, lines 114 to 119. *)
Definition on_data (fileName : string) (row : Row) (m : JsMap.t) : JsMap.t :=
  let primaryKey := getPrimaryKey fileName row in
  if Js.truthy primaryKey then
    match primaryKey with
    | Some k => JsMap.set k row m
    | None => m
    end
  else m.

(** All ["data"] events of one file, in line order. *)
Definition load_rows (fileName : string) (rows : list Row) (m : JsMap.t) : JsMap.t :=
  foldl (λ acc row, on_data fileName row acc) m rows.

(** ** The join query *)

(** A [Set] of row objects: [add] keeps the first occurrence of a
    reference and iterates in insertion order. *)
Module JsSet.

Definition t := list Row.

Definition empty : t := [].

Fixpoint add (x : Row) (s : t) : t :=
  match s with
  | [] => [x]
  | y :: s' =>
      if decide (row_ref y = row_ref x) then y :: s' else y :: add x s'
  end.

End JsSet.

Definition routeTrips (s : Store) (routeId : string) : list Row :=
  List.filter (λ trip, Js.strict_eq (route_id trip) (Some routeId))
    (JsMap.values (st_trips s)).

Definition tripStops (s : Store) (trip : Row) : list (option Row) :=
  map (λ stopTime, JsMap.get_value (stop_id stopTime) (st_stops s))
    (List.filter (λ stopTime, Js.strict_eq (trip_id stopTime) (trip_id trip))
       (JsMap.values (st_stop_times s))).

(** [tripStops.forEach((stop) => { if (stop) routeStops.add(stop); })] *)
Definition add_stops (found : list (option Row)) (routeStops : JsSet.t) : JsSet.t :=
  foldl (λ acc stop, match stop with Some r => JsSet.add r acc | None => acc end)
    routeStops found.

(** The handler of [/api/routes/:routeId/stops], lines 160 to 175:
    [Array.from(routeStops)] after the loop over [routeTrips]. *)
Definition stopsForRoute (s : Store) (routeId : string) : list Row :=
  foldl (λ acc trip, add_stops (tripStops s trip) acc) JsSet.empty
    (routeTrips s routeId).

Definition listRoutes (s : Store) : list Row := JsMap.values (st_routes s).
Definition listStops (s : Store) : list Row := JsMap.values (st_stops s).

(** ** Responses *)

Inductive Body :=
  | Rows (rows : list Fields)
  | Failure (error : string) (message : option string).

Record Response := mkResponse { status : nat; body : Body }.

(** [res.json(rows)]: status 200 and the rows with all their fields. *)
Definition res_json (rows : list Row) : Response :=
  mkResponse 200 (Rows (row_fields <$> rows)).

(** The three handlers.  Nothing in their [try] blocks can throw (maps are
    read, arrays filtered), so the [catch] arms answering 500 are never
    taken. *)
Definition get_api_routes (s : Store) : Response := res_json (listRoutes s).
Definition get_api_stops (s : Store) : Response := res_json (listStops s).
Definition get_api_route_stops (s : Store) (routeId : string) : Response :=
  res_json (stopsForRoute s routeId).

(** ** Files, console and process *)

(** How the stream of one file finishes: ["end"], or ["error"] on the
    read stream, or ["error"] on the CSV stream. *)
Inductive StreamEnd :=
  | End
  | ReadError (message : string)
  | ParseError (message : string).

(** A file as the loader sees it: the field mappings of the ["data"]
    events, then the event that finishes the stream. *)
Record File := mkFile { file_rows : list Fields; file_end : StreamEnd }.

Abbreviation Dir := (gmap string File).

Inductive Console :=
  | Log (text : string)
  | Warn (text : string)
  | Error (text : string).

Inductive Process :=
  | Starting
  | Listening (port : string)
  | Exited (code : nat).

(** What the program reads from its host: its data directory's path, the
    [PORT] variable, whether [mkdirSync] and [writeFileSync] fail (with
    which message), and whether [app.listen] throws (as it does for a
    port out of range). *)
Record Host := mkHost {
  gtfsPath : string;
  PORT : Js.value;
  mkdir_fails : option string;
  write_fails : string → option string;
  listen_fails : option string;
}.

(** The data directory ([fs], [None] when the path does not exist), the
    store, the console and the process.  [unlistable] holds the error of
    [readdirSync] when the path exists but cannot be listed: it is a
    regular file, or permission is denied. *)
Record World := mkWorld {
  fs : option Dir;
  gtfsData : Store;
  console : list Console;
  process : Process;
  unlistable : option string;
}.

(** The program about to start, the store empty. *)
Definition start (d : option Dir) (u : option string) : World :=
  mkWorld d gtfsData0 [] Starting u.

(** The start on a path that is missing or is a directory that can be
    listed. *)
Definition boot (d : option Dir) : World := start d None.

Definition say (c : Console) (w : World) : World :=
  mkWorld (fs w) (gtfsData w) (console w ++ [c])%list (process w) (unlistable w).

Definition set_fs (d : Dir) (w : World) : World :=
  mkWorld (Some d) (gtfsData w) (console w) (process w) (unlistable w).

(** [fs.mkdirSync(gtfsPath, { recursive: true })] went well: a new, empty
    directory. *)
Definition make_dir (w : World) : World :=
  mkWorld (Some ∅) (gtfsData w) (console w) (process w) None.

Definition set_gtfsData (s : Store) (w : World) : World :=
  mkWorld (fs w) s (console w) (process w) (unlistable w).

Definition set_process (p : Process) (w : World) : World :=
  mkWorld (fs w) (gtfsData w) (console w) p (unlistable w).

(** [fs.existsSync(path.join(gtfsPath, fileName))] *)
Definition lookup_file (fileName : string) (w : World) : option File :=
  d ← fs w; d !! fileName.

Inductive Result := Ok | Throw (message : string).

(** *** The sample files *)

Definition nl : string := String "010"%char "".

Fixpoint split_on (sep : ascii) (s : string) : list string :=
  match s with
  | "" => [""]
  | String c s' =>
      if decide (c = sep) then "" :: split_on sep s'
      else match split_on sep s' with
           | [] => [String c ""]
           | w :: ws => String c w :: ws
           end
  end.

(** The lines of a text after its header: nothing follows a final
    newline. *)
Definition data_lines (lines : list string) : list string :=
  match reverse lines with
  | "" :: before => reverse before
  | _ => lines
  end.

(** The CSV reader on a text without quoting, whose lines are no longer
    than its header: one mapping per data line, cell [i] under header
    [i]; an empty line gives a mapping without fields. *)
Definition csv (text : string) : File :=
  match split_on "010"%char text with
  | [] => mkFile [] End
  | header :: lines =>
      let headers := split_on ","%char header in
      mkFile
        (map (λ line,
                if decide (line = "") then ∅
                else foldl (λ (o : Fields) hc, <[hc.1 := hc.2]> o) ∅
                       (zip headers (split_on ","%char line)))
             (data_lines lines))
        End
  end.

Definition sampleData : list (string * string) :=
  [ ("routes.txt",
     "route_id,route_short_name,route_long_name,route_type" +:+ nl +:+
     "1,101,Downtown Express,3");
    ("stops.txt",
     "stop_id,stop_name,stop_lat,stop_lon" +:+ nl +:+
     "1001,Downtown Station,40.712778,-74.006111");
    ("trips.txt",
     "route_id,service_id,trip_id,trip_headsign" +:+ nl +:+
     "1,1,1001,Downtown via Main St");
    ("stop_times.txt",
     "trip_id,arrival_time,departure_time,stop_id,stop_sequence" +:+ nl +:+
     "1001,08:00:00,08:00:00,1001,1");
    ("calendar.txt",
     "service_id,monday,tuesday,wednesday,thursday,friday,saturday,sunday,start_date,end_date" +:+ nl +:+
     "1,1,1,1,1,1,0,0,20240101,20241231") ].

(** *** Directory set-up *)

(** Lines 28 to 39. *)
Definition checkGTFSDirectory (h : Host) (w : World) : Result * World :=
  match fs w with
  | Some _ => (Ok, w)
  | None =>
      let w1 := say (Log "Creating GTFS directory...")
                  (say (Error ("GTFS directory not found at: " +:+ gtfsPath h)) w) in
      match mkdir_fails h with
      | Some m => (Throw ("Failed to create GTFS directory: " +:+ m), w1)
      | None => (Ok, say (Log "GTFS directory created successfully.") (make_dir w1))
      end
  end.

(** Lines 42 to 67: each sample file that does not exist is written. *)
Definition createSampleGTFSFiles (h : Host) (w : World) : World :=
  foldl (λ w '(filename, content),
           match lookup_file filename w with
           | Some _ => w
           | None =>
               match write_fails h filename with
               | Some m => say (Error ("Failed to create " +:+ filename +:+ ": " +:+ m)) w
               | None =>
                   say (Log ("Created sample " +:+ filename))
                     (set_fs (<[filename := csv content]> (default ∅ (fs w))) w)
               end
           end)
    w sampleData.

(** ** The loader *)

(** The row objects of a file's ["data"] events. *)
Definition read_rows (fileName : string) (f : File) : list Row :=
  imap (λ i flds, mkRow (fileName, i) flds) (file_rows f).

(** The loop over [Object.entries(fileMapping)], lines 98 to 132: a
    missing file is warned about and skipped; a present one has its rows
    handled, then either the next file follows or the error of the stream
    is reported and thrown. *)
Fixpoint load_files (files : list (string * DataKey)) (w : World) : Result * World :=
  match files with
  | [] => (Ok, w)
  | (fileName, dataKey) :: rest =>
      match lookup_file fileName w with
      | None => load_files rest (say (Warn ("Missing file: " +:+ fileName)) w)
      | Some f =>
          let store := gtfsData w in
          let w1 :=
            set_gtfsData
              (with_collection dataKey
                 (load_rows fileName (read_rows fileName f) (collection dataKey store))
                 store) w in
          let failed (e : string) :=
            (Throw e, say (Error ("Failed to load " +:+ fileName +:+ ": " +:+ e)) w1) in
          match file_end f with
          | End => load_files rest (say (Log ("Successfully loaded " +:+ fileName)) w1)
          | ReadError m => failed ("Error reading " +:+ fileName +:+ ": " +:+ m)
          | ParseError m => failed ("Error parsing " +:+ fileName +:+ ": " +:+ m)
          end
      end
  end.

(** The outer [catch]: whatever was thrown is thrown again with a
    prefix. *)
Definition rethrow (r : Result * World) : Result * World :=
  match r with
  | (Throw e, w) => (Throw ("GTFS data loading failed: " +:+ e), w)
  | ok => ok
  end.

(** Lines 93 to 96: the sample files are written when the directory
    lists no entry. *)
Definition seed (h : Host) (w : World) : World :=
  if decide (size (default ∅ (fs w)) = 0) then
    createSampleGTFSFiles h
      (say (Log "GTFS directory is empty. Creating sample files...") w)
  else w.

(** Lines 88 to 136.  [fs.readdirSync(gtfsPath)] at line 93 throws when
    the path cannot be listed; like every error of the outer [try], it is
    thrown again with the prefix. *)
Definition loadGTFSData (h : Host) (w : World) : Result * World :=
  match checkGTFSDirectory h w with
  | (Throw e, w1) => rethrow (Throw e, w1)
  | (Ok, w1) =>
      match unlistable w1 with
      | Some m => rethrow (Throw m, w1)
      | None => rethrow (load_files fileMapping (seed h w1))
      end
  end.

(** ** Start-up *)

(** [process.env.PORT || 3000], as its text. *)
Definition port (h : Host) : string :=
  if Js.truthy (PORT h) then Js.to_string (PORT h) else "3000".

(** The [catch] arm of [initializeServer], lines 207 to 215: the
    diagnostics, then [process.exit(1)]. *)
Definition startup_failed (h : Host) (e : string) (w : World) : World :=
  set_process (Exited 1)
    (say (Log "4. Check if all required GTFS files are present")
    (say (Log "3. Ensure GTFS files have correct column headers")
    (say (Log "2. Verify file permissions")
    (say (Log ("1. Check if gtfs_data directory exists in: " +:+ gtfsPath h))
    (say (Log (nl +:+ "Troubleshooting tips:"))
    (say (Error ("Server initialization failed: " +:+ e)) w)))))).

(** Lines 197 to 216.  Both the load and [app.listen] are inside the
    [try]: an error thrown by either takes the [catch] arm.  When
    [app.listen] returns, the server is listening and its callback
    prints the two lines. *)
Definition initializeServer (h : Host) (w : World) : World :=
  match loadGTFSData h w with
  | (Ok, w1) =>
      match listen_fails h with
      | Some e => startup_failed h e w1
      | None =>
          say (Log ("GTFS data loaded from: " +:+ gtfsPath h))
            (say (Log ("GTFS API server running on port " +:+ port h))
               (set_process (Listening (port h)) w1))
      end
  | (Throw e, w1) => startup_failed h e w1
  end.

(** * Notions used to state the properties *)

(** The five file names the loader knows. *)
Definition required (fileName : string) : Prop := fileName ∈ fileMapping.*1.

(** The four entities whose key is one field of the row. *)
Definition key_field (fileName : string) : option string :=
  if decide (fileName = "routes.txt") then Some "route_id"
  else if decide (fileName = "stops.txt") then Some "stop_id"
  else if decide (fileName = "trips.txt") then Some "trip_id"
  else if decide (fileName = "calendar.txt") then Some "service_id"
  else None.

(** The file of each collection, as [fileMapping] pairs them. *)
Definition file_of (dataKey : DataKey) : string :=
  match dataKey with
  | routes => "routes.txt"
  | stops => "stops.txt"
  | trips => "trips.txt"
  | stop_times => "stop_times.txt"
  | calendar => "calendar.txt"
  end.

(** A row derives key [k] when [getPrimaryKey] yields [k] and the guard
    [if (primaryKey)] lets it through. *)
Definition derives (fileName k : string) (row : Row) : Prop :=
  getPrimaryKey fileName row = Some k ∧ k ≠ "".

#[global] Instance derives_dec fileName k row : Decision (derives fileName k row).
Proof. unfold derives. apply _. Defined.

(** The last row, in input order, that derives [k]. *)
Definition last_deriving (fileName k : string) (rows : list Row) : option Row :=
  last (filter (derives fileName k) rows).

(** The key field of a row is missing when it is unset or empty. *)
Definition keyless (name : string) (row : Row) : Prop :=
  field name row = None ∨ field name row = Some "".

(** A stop time is dangling when its [stop_id] resolves to no stop. *)
Definition dangling (s : Store) (stopTime : Row) : Prop :=
  JsMap.get_value (stop_id stopTime) (st_stops s) = None.

#[global] Instance dangling_dec s stopTime : Decision (dangling s stopTime).
Proof. unfold dangling. apply _. Defined.

(** The store with its dangling stop times removed. *)
Definition without_dangling (s : Store) : Store :=
  with_collection stop_times
    (filter (λ e : string * Row, ¬ dangling s e.2) (st_stop_times s)) s.

(** The loop over the trips of a route, from any accumulator. *)
Definition collect (s : Store) (trips : list Row) (acc : JsSet.t) : JsSet.t :=
  foldl (λ acc trip, add_stops (tripStops s trip) acc) acc trips.

(** Every stored entry [(k, r)] of the collection of a file is a row of
    that file which derives [k]. *)
Definition loaded (w : World) : Prop :=
  ∀ fileName dataKey k r,
    (fileName, dataKey) ∈ fileMapping →
    (k, r) ∈ collection dataKey (gtfsData w) →
    derives fileName k r ∧
    ∃ file, lookup_file fileName w = Some file ∧ r ∈ read_rows fileName file.

(** The error that the stream of a file raises, if any. *)
Definition failure (fileName : string) (e : StreamEnd) : option string :=
  match e with
  | End => None
  | ReadError m => Some ("Error reading " +:+ fileName +:+ ": " +:+ m)
  | ParseError m => Some ("Error parsing " +:+ fileName +:+ ": " +:+ m)
  end.

(** The world once the ["data"] events of a file have been handled. *)
Definition store_rows (fileName : string) (dataKey : DataKey) (file : File)
    (w : World) : World :=
  set_gtfsData
    (with_collection dataKey
       (load_rows fileName (read_rows fileName file) (collection dataKey (gtfsData w)))
       (gtfsData w)) w.

(** A file is clean when it is missing or its stream ends well. *)
Definition clean (w : World) (fileName : string) : Prop :=
  ∀ file, lookup_file fileName w = Some file → file_end file = End.

(** Two worlds alike but for file [f], missing from the first and
    present in the second, and for the collection [dk]. *)
Definition alike (f : string) (dk : DataKey) (file : File) (d : Dir)
    (w w' : World) : Prop :=
  fs w = Some d ∧ fs w' = Some (<[f := file]> d) ∧
  ∀ dk', dk' ≠ dk → collection dk' (gtfsData w) = collection dk' (gtfsData w').

(** A store with one route, one trip on it, one stop time of that trip
    and the stop it names. *)
Module Demo.

Definition route : Row :=
  mkRow ("routes.txt", 0) {[ "route_id" := "R1"; "route_short_name" := "1" ]}.
Definition stop : Row :=
  mkRow ("stops.txt", 0) {[ "stop_id" := "S1"; "stop_name" := "Main St" ]}.
Definition trip : Row :=
  mkRow ("trips.txt", 0) {[ "route_id" := "R1"; "trip_id" := "T1" ]}.
Definition stopTime : Row :=
  mkRow ("stop_times.txt", 0)
    {[ "trip_id" := "T1"; "stop_id" := "S1"; "stop_sequence" := "1" ]}.

Definition store : Store :=
  mkStore [("R1", route)] [("S1", stop)] [("T1", trip)] [("T1_1", stopTime)] [].

End Demo.

(** A directory in which two trips of route "R1" call at stop "S1", one
    of them twice, and one calls at "S2" and at a stop that is not
    listed. *)
Module Loop.

Definition dir : Dir :=
  {[ "routes.txt" := mkFile [ {[ "route_id" := "R1" ]} ] End;
     "stops.txt" :=
       mkFile [ {[ "stop_id" := "S1" ]}; {[ "stop_id" := "S2" ]} ] End;
     "trips.txt" :=
       mkFile [ {[ "route_id" := "R1"; "trip_id" := "T1" ]};
                {[ "route_id" := "R1"; "trip_id" := "T2" ]} ] End;
     "stop_times.txt" :=
       mkFile [ {[ "trip_id" := "T1"; "stop_id" := "S1"; "stop_sequence" := "1" ]};
                {[ "trip_id" := "T1"; "stop_id" := "S2"; "stop_sequence" := "2" ]};
                {[ "trip_id" := "T1"; "stop_id" := "S1"; "stop_sequence" := "3" ]};
                {[ "trip_id" := "T2"; "stop_id" := "S9"; "stop_sequence" := "1" ]};
                {[ "trip_id" := "T2"; "stop_id" := "S1"; "stop_sequence" := "2" ]} ]
         End ]}.

Definition host : Host := mkHost "gtfs_data" None None (λ _, None) None.

Definition store : Store := gtfsData (loadGTFSData host (boot (Some dir))).2.

Definition trip : Row :=
  mkRow ("trips.txt", 1) {[ "route_id" := "R1"; "trip_id" := "T2" ]}.
Definition stopTime : Row :=
  mkRow ("stop_times.txt", 4)
    {[ "trip_id" := "T2"; "stop_id" := "S1"; "stop_sequence" := "2" ]}.
Definition stop : Row := mkRow ("stops.txt", 0) {[ "stop_id" := "S1" ]}.

End Loop.

(** A directory with routes and stops and nothing else. *)
Module Partial.

Definition dir : Dir :=
  {[ "routes.txt" := mkFile [ {[ "route_id" := "R1" ]} ] End;
     "stops.txt" := mkFile [ {[ "stop_id" := "S1" ]} ] End ]}.

Definition host : Host := mkHost "gtfs_data" None None (λ _, None) None.

Definition calendar_rows : list Fields :=
  [ {[ "service_id" := "1"; "monday" := "1" ]} ].

End Partial.

(** A directory whose [routes.txt] delivers one row and then raises an
    error on the CSV stream. *)
Module Truncated.

Definition routes_file : File :=
  mkFile [ {[ "route_id" := "R1" ]} ] (ParseError "Unexpected end of input").

Definition dir : Dir :=
  {[ "routes.txt" := routes_file;
     "stops.txt" := mkFile [ {[ "stop_id" := "S1" ]} ] End ]}.

Definition host : Host := mkHost "gtfs_data" None None (λ _, None) None.

End Truncated.

(** The key under which the ["data"] handler stores a row, if it stores
    it. *)
Definition derived_key (fileName : string) (row : Row) : option string :=
  if Js.truthy (getPrimaryKey fileName row) then getPrimaryKey fileName row
  else None.

(** The elements of a list, each once, in the order of their first
    occurrence. *)
Definition first_occurrences (l : list string) : list string :=
  reverse (remove_dups (reverse l)).

(** The body of the [forEach] of [createSampleGTFSFiles], for one sample. *)
Definition write_sample (h : Host) (w : World) (sample : string * string) : World :=
  let '(filename, content) := sample in
  match lookup_file filename w with
  | Some _ => w
  | None =>
      match write_fails h filename with
      | Some m => say (Error ("Failed to create " +:+ filename +:+ ": " +:+ m)) w
      | None =>
          say (Log ("Created sample " +:+ filename))
            (set_fs (<[filename := csv content]> (default ∅ (fs w))) w)
      end
  end.

(** A directory that holds a calendar of its own and nothing else. *)
Definition own_calendar : Dir :=
  {[ "calendar.txt" := mkFile [ {[ "service_id" := "WEEKDAY" ]} ] End ]}.

(** The store without the stop times that lack a [trip_id]. *)
Definition without_tripless (s : Store) : Store :=
  with_collection stop_times
    (filter (λ e : string * Row, ¬ keyless "trip_id" e.2) (st_stop_times s)) s.

(** * Properties *)

(** ** JavaScript values *)

Lemma truthy_Some (s : string) : Js.truthy (Some s) = true ↔ s ≠ "".
Proof.
  unfold Js.truthy. rewrite negb_true_iff.
  split.
  - intros H ->. discriminate.
  - intros H. apply String.eqb_neq. exact H.
Qed.

Lemma truthy_inv (v : Js.value) :
  Js.truthy v = true → ∃ s, v = Some s ∧ s ≠ "".
Proof.
  destruct v as [s|]; [|discriminate].
  intros H. exists s. split; [done|]. by apply truthy_Some.
Qed.

Lemma strict_eq_true (a b : Js.value) : Js.strict_eq a b = true ↔ a = b.
Proof. unfold Js.strict_eq. apply bool_decide_eq_true. Qed.

Lemma strict_eq_false (a b : Js.value) : Js.strict_eq a b = false ↔ a ≠ b.
Proof. unfold Js.strict_eq. apply bool_decide_eq_false. Qed.

(** ** Maps *)

Section JsMap_facts.

Implicit Types (k : string) (v : Row) (m : JsMap.t).

Lemma get_set_eq k v m : JsMap.get k (JsMap.set k v m) = Some v.
Proof.
  induction m as [|[k' v'] m IH]; simpl.
  - by rewrite decide_True.
  - destruct (decide (k' = k)) as [->|Hne]; simpl.
    + by rewrite decide_True.
    + by rewrite decide_False.
Qed.

Lemma get_set_ne k k' v m :
  k ≠ k' → JsMap.get k' (JsMap.set k v m) = JsMap.get k' m.
Proof.
  intros Hne. induction m as [|[k0 v0] m IH]; simpl.
  - by rewrite decide_False.
  - destruct (decide (k0 = k)) as [->|Hne0]; simpl.
    + by rewrite !decide_False.
    + by rewrite IH.
Qed.

Lemma get_set k k' v m :
  JsMap.get k' (JsMap.set k v m) =
  if decide (k = k') then Some v else JsMap.get k' m.
Proof.
  destruct (decide (k = k')) as [->|Hne].
  - apply get_set_eq.
  - by apply get_set_ne.
Qed.

Lemma keys_set k v m :
  JsMap.keys (JsMap.set k v m) =
  if decide (k ∈ JsMap.keys m) then JsMap.keys m else (JsMap.keys m ++ [k])%list.
Proof.
  unfold JsMap.keys. induction m as [|[k' v'] m IH]; [done|].
  cbn [JsMap.set]. destruct (decide (k' = k)) as [->|Hne]; rewrite !fmap_cons; cbn [fst].
  - rewrite decide_True; [done|]. by left.
  - rewrite IH. destruct (decide (k ∈ m.*1)) as [Hin|Hnin].
    + rewrite decide_True; [done|]. by right.
    + rewrite decide_False; [done|].
      intros [->|?]%elem_of_cons; done.
Qed.

Lemma NoDup_keys_set k v m :
  NoDup (JsMap.keys m) → NoDup (JsMap.keys (JsMap.set k v m)).
Proof.
  intros Hnd. rewrite keys_set. case_decide; [done|].
  apply NoDup_app. split_and!; [done| |apply NoDup_singleton].
  intros x Hx ->%list_elem_of_singleton. done.
Qed.

Lemma length_set k v m :
  length (JsMap.set k v m) =
  if decide (k ∈ JsMap.keys m) then length m else S (length m).
Proof.
  rewrite <-(length_fmap fst (JsMap.set k v m)).
  fold (JsMap.keys (JsMap.set k v m)). rewrite keys_set.
  case_decide; unfold JsMap.keys; rewrite ?length_app, length_fmap; simpl; lia.
Qed.

Lemma get_Some_elem_of k v m : JsMap.get k m = Some v → (k, v) ∈ m.
Proof.
  induction m as [|[k' v'] m IH]; simpl; [done|].
  case_decide as Hk.
  - intros [= ->]. subst. by left.
  - intros H. right. by apply IH.
Qed.

Lemma elem_of_get_Some k v m :
  NoDup (JsMap.keys m) → (k, v) ∈ m → JsMap.get k m = Some v.
Proof.
  unfold JsMap.keys. induction m as [|[k' v'] m IH]; simpl.
  - by intros _ ?%elem_of_nil.
  - intros [Hk Hnd]%NoDup_cons [[= -> ->]|Hin]%elem_of_cons.
    + by rewrite decide_True.
    + rewrite decide_False; [by apply IH|].
      intros ->. apply Hk.
      by apply (list_elem_of_fmap_2' fst _ (k, v)).
Qed.

Lemma get_Some_values k v m : JsMap.get k m = Some v → v ∈ JsMap.values m.
Proof.
  intros H%get_Some_elem_of.
  by apply (list_elem_of_fmap_2' snd _ (k, v)).
Qed.

Lemma values_set_subseteq k v m r :
  r ∈ JsMap.values (JsMap.set k v m) → r = v ∨ r ∈ JsMap.values m.
Proof.
  unfold JsMap.values. induction m as [|[k' v'] m IH]; simpl.
  - intros ->%list_elem_of_singleton. by left.
  - case_decide; simpl; rewrite !elem_of_cons.
    + intros [->|?]; [by left|by right; right].
    + intros [->|[->|?]%IH]; [by right; left|by left|by right; right].
Qed.

End JsMap_facts.

(** ** Key derivation and the ["data"] handler *)

Lemma getPrimaryKey_key_field fileName name row :
  key_field fileName = Some name → getPrimaryKey fileName row = field name row.
Proof.
  unfold key_field, getPrimaryKey.
  repeat case_decide; intros [= <-]; try done; subst; done.
Qed.

Lemma getPrimaryKey_stop_times row :
  getPrimaryKey "stop_times.txt" row =
  Some (Js.to_string (trip_id row) +:+ "_" +:+ Js.to_string (stop_sequence row)).
Proof. reflexivity. Qed.

Lemma stop_times_key_nonempty (a b : string) : a +:+ "_" +:+ b ≠ "".
Proof. by destruct a. Qed.

Lemma stop_times_key_truthy row :
  Js.truthy (getPrimaryKey "stop_times.txt" row) = true.
Proof.
  rewrite getPrimaryKey_stop_times. apply truthy_Some, stop_times_key_nonempty.
Qed.

Lemma on_data_derives fileName k row m :
  derives fileName k row → on_data fileName row m = JsMap.set k row m.
Proof.
  intros [Hk Hne]. unfold on_data. rewrite Hk.
  by rewrite (proj2 (truthy_Some k) Hne).
Qed.

Lemma on_data_skips fileName row m :
  (∀ k, ¬ derives fileName k row) → on_data fileName row m = m.
Proof.
  intros Hno. unfold on_data.
  destruct (Js.truthy (getPrimaryKey fileName row)) eqn:Ht; [|done].
  destruct (truthy_inv _ Ht) as (k & Hk & Hne).
  by destruct (Hno k).
Qed.

Lemma on_data_cases fileName row m :
  (∃ k, derives fileName k row ∧ on_data fileName row m = JsMap.set k row m) ∨
  ((∀ k, ¬ derives fileName k row) ∧ on_data fileName row m = m).
Proof.
  destruct (Js.truthy (getPrimaryKey fileName row)) eqn:Ht.
  - destruct (truthy_inv _ Ht) as (k & Hk & Hne).
    left. exists k. split; [done|]. by apply on_data_derives.
  - right.
    assert (∀ k, ¬ derives fileName k row) as Hno.
    { intros k [Hk Hne]. rewrite Hk in Ht.
      apply truthy_Some in Hne. congruence. }
    split; [done|]. by apply on_data_skips.
Qed.

Lemma get_on_data fileName row m k :
  JsMap.get k (on_data fileName row m) =
  if decide (derives fileName k row) then Some row else JsMap.get k m.
Proof.
  destruct (on_data_cases fileName row m) as [(k' & Hd & ->)|[Hno ->]].
  - rewrite get_set. destruct (decide (k' = k)) as [->|Hne].
    + by rewrite decide_True.
    + rewrite decide_False; [done|].
      intros [Hk _]. destruct Hd as [Hk' _]. congruence.
  - rewrite decide_False; [done|]. apply Hno.
Qed.

Lemma NoDup_keys_on_data fileName row m :
  NoDup (JsMap.keys m) → NoDup (JsMap.keys (on_data fileName row m)).
Proof.
  intros Hnd.
  destruct (on_data_cases fileName row m) as [(k' & Hd & ->)|[Hno ->]]; [|done].
  by apply NoDup_keys_set.
Qed.

Lemma load_rows_snoc fileName rows row m :
  load_rows fileName (rows ++ [row]) m =
  on_data fileName row (load_rows fileName rows m).
Proof. unfold load_rows. by rewrite foldl_snoc. Qed.

Lemma load_rows_cons fileName rows row m :
  load_rows fileName (row :: rows) m =
  load_rows fileName rows (on_data fileName row m).
Proof. reflexivity. Qed.

Lemma NoDup_keys_load_rows fileName rows m :
  NoDup (JsMap.keys m) → NoDup (JsMap.keys (load_rows fileName rows m)).
Proof.
  revert m. induction rows as [|row rows IH]; intros m Hnd; [done|].
  rewrite load_rows_cons. by apply IH, NoDup_keys_on_data.
Qed.

Lemma last_deriving_snoc fileName k rows row :
  last_deriving fileName k (rows ++ [row]) =
  if decide (derives fileName k row) then Some row
  else last_deriving fileName k rows.
Proof.
  unfold last_deriving. rewrite filter_app.
  case_decide as Hd.
  - rewrite (filter_cons_True _ _ _ Hd), filter_nil. apply last_snoc.
  - rewrite (filter_cons_False _ _ _ Hd), filter_nil. by rewrite app_nil_r.
Qed.

Lemma get_load_rows fileName rows k :
  JsMap.get k (load_rows fileName rows JsMap.empty) = last_deriving fileName k rows.
Proof.
  induction rows as [|row rows IH] using rev_ind; [done|].
  rewrite load_rows_snoc, get_on_data, last_deriving_snoc.
  by rewrite IH.
Qed.

Lemma values_on_data fileName row m r :
  r ∈ JsMap.values (on_data fileName row m) → r = row ∨ r ∈ JsMap.values m.
Proof.
  destruct (on_data_cases fileName row m) as [(k' & Hd & ->)|[Hno ->]].
  - apply values_set_subseteq.
  - by right.
Qed.

Lemma values_load_rows fileName rows m r :
  r ∈ JsMap.values (load_rows fileName rows m) → r ∈ rows ∨ r ∈ JsMap.values m.
Proof.
  revert m. induction rows as [|row rows IH]; intros m; [by right|].
  rewrite load_rows_cons. intros [?|[->|?]%values_on_data]%IH.
  - left. by right.
  - left. by left.
  - by right.
Qed.

(** **** C4 — the collection of one entity after any sequence of rows

    Whatever rows the loader has processed so far for one file (every
    prefix of the input, so after every insertion), the keys of the
    collection are pairwise distinct, and the collection holds the entry
    [(k, row)] exactly when [row] is the last of these rows to derive
    [k]: one row per derived key, the last writer. *)
Theorem C4_last_write_wins (fileName : string) (rows : list Row) (n : nat) :
  let m := load_rows fileName (take n rows) JsMap.empty in
  NoDup (JsMap.keys m) ∧
  (∀ k, JsMap.get k m = last_deriving fileName k (take n rows)) ∧
  (∀ k row, (k, row) ∈ m ↔ last_deriving fileName k (take n rows) = Some row).
Proof.
  intros m.
  assert (NoDup (JsMap.keys m)) as Hnd.
  { apply NoDup_keys_load_rows, NoDup_nil_2. }
  split_and!; [done|apply get_load_rows|].
  intros k row. rewrite <-get_load_rows. fold m. split.
  - by apply elem_of_get_Some.
  - apply get_Some_elem_of.
Qed.

(** ** The composite key of stop times *)

Lemma on_data_stop_times row m :
  on_data "stop_times.txt" row m =
  JsMap.set (Js.to_string (trip_id row) +:+ "_" +:+ Js.to_string (stop_sequence row))
    row m.
Proof.
  apply on_data_derives. split; [done|apply stop_times_key_nonempty].
Qed.

(** Two stop times with equal [trip_id] derive the same key exactly when
    their [stop_sequence]s read the same in the template literal, where an
    unset one reads "undefined". *)
Lemma stop_time_keys_equal ra rb :
  trip_id ra = trip_id rb →
  getPrimaryKey "stop_times.txt" ra = getPrimaryKey "stop_times.txt" rb ↔
  Js.to_string (stop_sequence ra) = Js.to_string (stop_sequence rb).
Proof.
  intros Ht. rewrite !getPrimaryKey_stop_times, Ht. split.
  - intros [= Heq]. apply (inj (String.app _)) in Heq. by injection Heq.
  - by intros ->.
Qed.

(** **** C5 — the composite key of stop times

    The key of a StopTime row is its [trip_id], an underscore and its
    [stop_sequence], concatenated.  Of two rows with equal [trip_id] that
    both carry a [stop_sequence], loaded one after the other: when the
    two sequences differ both rows are stored, each under its own key;
    when they are equal the keys coincide and the later row takes the
    place of the earlier one, the collection growing by no entry. *)
Theorem C5_stop_time_composite_key
    (ra rb : Row) (sa sb : string) (m : JsMap.t) :
  trip_id ra = trip_id rb →
  stop_sequence ra = Some sa →
  stop_sequence rb = Some sb →
  let f := "stop_times.txt" in
  let ka := Js.to_string (trip_id ra) +:+ "_" +:+ sa in
  let kb := Js.to_string (trip_id rb) +:+ "_" +:+ sb in
  getPrimaryKey f ra = Some ka ∧
  getPrimaryKey f rb = Some kb ∧
  (sa ≠ sb →
     load_rows f [ra; rb] JsMap.empty = [(ka, ra); (kb, rb)] ∧
     JsMap.get ka (load_rows f [ra; rb] m) = Some ra ∧
     JsMap.get kb (load_rows f [ra; rb] m) = Some rb) ∧
  (sa = sb →
     ka = kb ∧
     load_rows f [ra; rb] JsMap.empty = [(kb, rb)] ∧
     JsMap.get kb (load_rows f [ra; rb] m) = Some rb ∧
     length (load_rows f [ra; rb] m) = length (load_rows f [ra] m)).
Proof.
  intros Ht Ha Hb f ka kb.
  assert (getPrimaryKey f ra = Some ka) as Hka.
  { unfold f, ka. by rewrite getPrimaryKey_stop_times, Ha. }
  assert (getPrimaryKey f rb = Some kb) as Hkb.
  { unfold f, kb. by rewrite getPrimaryKey_stop_times, Hb. }
  assert (∀ m0, load_rows f [ra; rb] m0 = JsMap.set kb rb (JsMap.set ka ra m0))
    as Hload.
  { intros m0. unfold f, load_rows; simpl.
    rewrite !on_data_stop_times, Ha, Hb. done. }
  split_and!; [done|done| |].
  - intros Hne.
    assert (ka ≠ kb) as Hk.
    { unfold ka, kb. rewrite Ht. intros Heq.
      apply (inj (String.app _)) in Heq. by injection Heq. }
    rewrite !Hload. split_and!.
    + simpl. by rewrite decide_False.
    + by rewrite get_set_ne, get_set_eq.
    + by rewrite get_set_eq.
  - intros ->.
    assert (ka = kb) as Hk by (unfold ka, kb; by rewrite Ht).
    rewrite !Hload, Hk. split_and!; [done| | |].
    + simpl. by rewrite decide_True.
    + by rewrite get_set_eq.
    + assert (load_rows f [ra] m = JsMap.set kb ra m) as ->.
      { unfold f, load_rows; simpl. rewrite on_data_stop_times, Ha. by rewrite <-Hk. }
      rewrite (length_set kb rb). rewrite decide_True; [done|].
      rewrite keys_set. case_decide; [done|]. apply elem_of_app. right. by left.
Qed.

Lemma C5_stop_time_composite_key_witness :
  let ra := mkRow ("stop_times.txt", 0)
              {[ "trip_id" := "T1"; "stop_id" := "S1"; "stop_sequence" := "1" ]} in
  let rb := mkRow ("stop_times.txt", 1)
              {[ "trip_id" := "T1"; "stop_id" := "S2"; "stop_sequence" := "2" ]} in
  getPrimaryKey "stop_times.txt" ra = Some "T1_1" ∧
  getPrimaryKey "stop_times.txt" rb = Some "T1_2" ∧
  load_rows "stop_times.txt" [ra; rb] JsMap.empty = [("T1_1", ra); ("T1_2", rb)].
Proof.
  intros ra rb.
  destruct (C5_stop_time_composite_key ra rb "1" "2" JsMap.empty)
    as (Ha & Hb & Hne & _); [reflexivity|reflexivity|reflexivity|].
  destruct (Hne ltac:(discriminate)) as (Hl & _).
  split_and!; [exact Ha|exact Hb|exact Hl].
Defined.

(** **** C10 — the composite key is not injective

    A row with [trip_id] "a_1" and [stop_sequence] "2" and a row with
    [trip_id] "a" and [stop_sequence] "1_2" are distinct as pairs and
    derive the same key "a_1_2"; loading the first and then the second
    stores the second alone. *)
Theorem C10_stop_time_key_not_injective (ra rb : Row) :
  trip_id ra = Some "a_1" → stop_sequence ra = Some "2" →
  trip_id rb = Some "a" → stop_sequence rb = Some "1_2" →
  (trip_id ra, stop_sequence ra) ≠ (trip_id rb, stop_sequence rb) ∧
  getPrimaryKey "stop_times.txt" ra = Some "a_1_2" ∧
  getPrimaryKey "stop_times.txt" rb = Some "a_1_2" ∧
  load_rows "stop_times.txt" [ra; rb] JsMap.empty = [("a_1_2", rb)].
Proof.
  intros Hta Hsa Htb Hsb.
  assert (getPrimaryKey "stop_times.txt" ra = Some "a_1_2") as Hka.
  { by rewrite getPrimaryKey_stop_times, Hta, Hsa. }
  assert (getPrimaryKey "stop_times.txt" rb = Some "a_1_2") as Hkb.
  { by rewrite getPrimaryKey_stop_times, Htb, Hsb. }
  split_and!; [|done|done|].
  - rewrite Hta, Hsa, Htb, Hsb. discriminate.
  - unfold load_rows; simpl.
    rewrite !on_data_stop_times, Hta, Hsa, Htb, Hsb. reflexivity.
Qed.

Lemma C10_stop_time_key_not_injective_witness :
  let ra := mkRow ("stop_times.txt", 0) {[ "trip_id" := "a_1"; "stop_sequence" := "2" ]} in
  let rb := mkRow ("stop_times.txt", 1) {[ "trip_id" := "a"; "stop_sequence" := "1_2" ]} in
  (trip_id ra, stop_sequence ra) ≠ (trip_id rb, stop_sequence rb) ∧
  getPrimaryKey "stop_times.txt" ra = getPrimaryKey "stop_times.txt" rb ∧
  JsMap.values (load_rows "stop_times.txt" [ra; rb] JsMap.empty) = [rb].
Proof.
  intros ra rb.
  destruct (C10_stop_time_key_not_injective ra rb)
    as (Hne & Ha & Hb & Hl); [reflexivity|reflexivity|reflexivity|reflexivity|].
  split_and!; [exact Hne|by rewrite Ha, Hb|by rewrite Hl].
Defined.

(** ** Rows without a key *)

Lemma keyless_not_truthy name row :
  keyless name row ↔ Js.truthy (field name row) = false.
Proof.
  unfold keyless. destruct (field name row) as [s|]; simpl.
  - rewrite negb_false_iff, String.eqb_eq. split.
    + by intros [|[= ->]].
    + intros ->. by right.
  - split; [done|by left].
Qed.

(** For routes, stops, trips and calendar the guard drops a row without
    its key field. *)
Lemma on_data_keyless fileName name row m :
  key_field fileName = Some name → keyless name row →
  on_data fileName row m = m.
Proof.
  intros Hf Hk%keyless_not_truthy. unfold on_data.
  by rewrite (getPrimaryKey_key_field _ _ _ Hf), Hk.
Qed.

Lemma load_rows_no_keyless fileName name rows r :
  key_field fileName = Some name →
  r ∈ JsMap.values (load_rows fileName rows JsMap.empty) →
  r ∈ rows ∧ ¬ keyless name r.
Proof.
  intros Hf Hr.
  destruct (list_elem_of_fmap_1 _ _ _ Hr) as ([k r'] & -> & Hin); simpl.
  split.
  - destruct (values_load_rows _ _ _ _ Hr) as [?|H]; [done|by apply elem_of_nil in H].
  - assert (last_deriving fileName k rows = Some r') as Hl.
    { rewrite <-get_load_rows. apply elem_of_get_Some; [|done].
      apply NoDup_keys_load_rows, NoDup_nil_2. }
    apply last_Some_elem_of, list_elem_of_filter in Hl as [[Hk Hne] _].
    rewrite (getPrimaryKey_key_field _ _ _ Hf) in Hk.
    unfold keyless. rewrite Hk. intros [|[= ->]]; done.
Qed.

(** A stop time is stored whatever its fields are: its key is never
    empty. *)
Lemma stop_time_always_stored row m :
  ∃ k, getPrimaryKey "stop_times.txt" row = Some k ∧
       JsMap.get k (on_data "stop_times.txt" row m) = Some row.
Proof.
  eexists. split; [apply getPrimaryKey_stop_times|].
  rewrite on_data_stop_times. apply get_set_eq.
Qed.

(** **** C3 — rows without key fields, on [stop_times.txt]

    The loader, run on a directory whose [stop_times.txt] has one data row
    with neither [trip_id] nor [stop_sequence], and one with both cells
    empty, stores both rows, under the keys "undefined_undefined" and
    "_".  The rule that rows without their key fields are dropped, which
    the guard enforces for the other four entities, does not hold for
    stop times. *)
Theorem C3_stop_time_without_key_fields_is_stored (h : Host) :
  let absent : Fields := {[ "stop_id" := "S1" ]} in
  let blank : Fields :=
    {[ "trip_id" := ""; "stop_id" := "S1"; "stop_sequence" := "" ]} in
  let d : Dir := {[ "stop_times.txt" := mkFile [absent; blank] End ]} in
  keyless "trip_id" (mkRow ("stop_times.txt", 0) absent) ∧
  keyless "stop_sequence" (mkRow ("stop_times.txt", 0) absent) ∧
  keyless "trip_id" (mkRow ("stop_times.txt", 1) blank) ∧
  keyless "stop_sequence" (mkRow ("stop_times.txt", 1) blank) ∧
  (loadGTFSData h (boot (Some d))).1 = Ok ∧
  st_stop_times (gtfsData (loadGTFSData h (boot (Some d))).2) =
    [ ("undefined_undefined", mkRow ("stop_times.txt", 0) absent);
      ("_", mkRow ("stop_times.txt", 1) blank) ].
Proof.
  intros absent blank d.
  split_and!; [by left|by left|by right|by right|reflexivity|reflexivity].
Qed.

(** ** The join query *)

Section query_facts.

Implicit Types (s : Store) (acc : JsSet.t) (r : Row).

Lemma add_stops_cons_Some r found acc :
  add_stops (Some r :: found) acc = add_stops found (JsSet.add r acc).
Proof. reflexivity. Qed.

Lemma add_stops_cons_None found acc :
  add_stops (None :: found) acc = add_stops found acc.
Proof. reflexivity. Qed.

(** Two stores whose trips agree and whose trips contribute alike
    answer alike. *)
Lemma stopsForRoute_ext s s' routeId :
  st_trips s = st_trips s' →
  (∀ trip acc, add_stops (tripStops s trip) acc = add_stops (tripStops s' trip) acc) →
  stopsForRoute s routeId = stopsForRoute s' routeId.
Proof.
  intros Ht Hstep. unfold stopsForRoute, routeTrips. rewrite <-Ht.
  generalize JsSet.empty.
  induction (List.filter _ (JsMap.values (st_trips s))) as [|trip l IH];
    intros acc; simpl; [done|].
  by rewrite Hstep, IH.
Qed.

Lemma routeTrips_nil s routeId :
  Forall (λ trip, route_id trip ≠ Some routeId) (JsMap.values (st_trips s)) →
  routeTrips s routeId = [].
Proof.
  unfold routeTrips. induction 1 as [|trip l Hne _ IH]; simpl; [done|].
  by rewrite (proj2 (strict_eq_false _ _) Hne).
Qed.

End query_facts.

(** **** C1 — the join on one route, one trip, one stop time, one stop

    In a store whose only trip [T1] runs on route [R1], whose only stop
    time belongs to trip [T1] and names stop [S1], and whose stop
    collection holds a row under [S1], the stops of route [R1] are that
    one row, and the handler answers 200 with that row. *)
Theorem C1_join_correctness
    (s : Store) (R1 T1 S1 kst : string) (trip stopTime stop : Row) :
  st_trips s = [(T1, trip)] →
  trip_id trip = Some T1 →
  route_id trip = Some R1 →
  st_stop_times s = [(kst, stopTime)] →
  trip_id stopTime = Some T1 →
  stop_id stopTime = Some S1 →
  JsMap.get S1 (st_stops s) = Some stop →
  stopsForRoute s R1 = [stop] ∧
  get_api_route_stops s R1 = mkResponse 200 (Rows [row_fields stop]).
Proof.
  intros Htrips Htid Hrid Hsts Hstid Hsid Hstop.
  assert (stopsForRoute s R1 = [stop]) as Hq.
  { unfold stopsForRoute, routeTrips, tripStops.
    rewrite Htrips, Hsts; simpl.
    rewrite (proj2 (strict_eq_true _ _) Hrid); simpl.
    rewrite Hstid, Htid, (proj2 (strict_eq_true _ _) eq_refl); simpl.
    by rewrite Hsid; simpl; rewrite Hstop. }
  split; [done|].
  unfold get_api_route_stops, res_json. by rewrite Hq.
Qed.

Lemma C1_join_correctness_witness :
  stopsForRoute Demo.store "R1" = [Demo.stop] ∧
  get_api_route_stops Demo.store "R1" =
    mkResponse 200 (Rows [row_fields Demo.stop]).
Proof.
  apply (C1_join_correctness Demo.store "R1" "T1" "S1" "T1_1"
           Demo.trip Demo.stopTime Demo.stop); reflexivity.
Defined.

(** **** C7 — a route without trips

    When no trip of the store has a [route_id] equal to [routeId], the
    stops of [routeId] are the empty sequence, and the handler answers 200
    with an empty array. *)
Theorem C7_unknown_route (s : Store) (routeId : string) :
  Forall (λ trip, route_id trip ≠ Some routeId) (JsMap.values (st_trips s)) →
  stopsForRoute s routeId = [] ∧
  get_api_route_stops s routeId = mkResponse 200 (Rows []).
Proof.
  intros Hno.
  assert (stopsForRoute s routeId = []) as Hq.
  { unfold stopsForRoute. by rewrite routeTrips_nil. }
  split; [done|].
  unfold get_api_route_stops, res_json. by rewrite Hq.
Qed.

Lemma C7_unknown_route_witness :
  stopsForRoute Demo.store "does-not-exist" = [] ∧
  get_api_route_stops Demo.store "does-not-exist" = mkResponse 200 (Rows []).
Proof.
  apply (C7_unknown_route Demo.store "does-not-exist").
  apply (bool_decide_unpack _). vm_compute. exact I.
Defined.

(** ** Dangling references *)

Lemma add_stops_without_dangling s trip acc :
  add_stops (tripStops s trip) acc =
  add_stops (tripStops (without_dangling s) trip) acc.
Proof.
  unfold tripStops, without_dangling.
  cbn [with_collection st_stops st_stop_times]. unfold JsMap.values.
  revert acc. induction (st_stop_times s) as [|[k st] m IH]; intros acc; [done|].
  rewrite fmap_cons; cbn [snd List.filter].
  destruct (decide (dangling s st)) as [Hd|Hd].
  - rewrite (filter_cons_False (λ e : string * Row, ¬ dangling s e.2)) by (simpl; tauto).
    destruct (Js.strict_eq (trip_id st) (trip_id trip)); [|apply IH].
    cbn [map]. unfold dangling in Hd. rewrite Hd, add_stops_cons_None. apply IH.
  - rewrite (filter_cons_True (λ e : string * Row, ¬ dangling s e.2)) by done.
    rewrite fmap_cons; cbn [snd List.filter].
    destruct (Js.strict_eq (trip_id st) (trip_id trip)); [|apply IH].
    cbn [map].
    destruct (JsMap.get_value (stop_id st) (st_stops s)) as [r|].
    + rewrite !add_stops_cons_Some. apply IH.
    + rewrite !add_stops_cons_None. apply IH.
Qed.

(** **** C6 — dangling stop references are skipped

    For every store and route, the stops of the route are the same as in
    the store from which every stop time with an unresolved [stop_id] has
    been removed; the handler gives the same answer on both, with
    status 200. *)
Theorem C6_dangling_stop_skipped (s : Store) (routeId : string) :
  stopsForRoute s routeId = stopsForRoute (without_dangling s) routeId ∧
  get_api_route_stops s routeId =
    get_api_route_stops (without_dangling s) routeId ∧
  status (get_api_route_stops s routeId) = 200.
Proof.
  assert (stopsForRoute s routeId = stopsForRoute (without_dangling s) routeId)
    as Hq.
  { apply stopsForRoute_ext; [done|]. apply add_stops_without_dangling. }
  split_and!; [done| |done].
  unfold get_api_route_stops. by rewrite Hq.
Qed.

(** ** The set of stops of a route *)

Section JsSet_facts.

Implicit Types (x r : Row) (acc : JsSet.t).

Lemma elem_of_add x acc r : r ∈ JsSet.add x acc → r = x ∨ r ∈ acc.
Proof.
  induction acc as [|y acc IH]; simpl.
  - intros ->%list_elem_of_singleton. by left.
  - case_decide; [by right|].
    intros [->|[->|?]%IH]%elem_of_cons; [right; by left|by left|right; by right].
Qed.

Lemma add_mono x acc r : r ∈ acc → r ∈ JsSet.add x acc.
Proof.
  induction acc as [|y acc IH]; simpl; [by intros ?%elem_of_nil|].
  case_decide; [done|].
  intros [->|?]%elem_of_cons; [by left|right; by apply IH].
Qed.

Lemma add_has_ref x acc : ∃ y, y ∈ JsSet.add x acc ∧ row_ref y = row_ref x.
Proof.
  induction acc as [|y acc (z & Hz & Hr)]; simpl.
  - exists x. split; [by left|done].
  - case_decide.
    + exists y. split; [by left|done].
    + exists z. split; [by right|done].
Qed.

Lemma refs_add x acc :
  row_ref <$> JsSet.add x acc =
  if decide (row_ref x ∈ row_ref <$> acc) then row_ref <$> acc
  else ((row_ref <$> acc) ++ [row_ref x])%list.
Proof.
  induction acc as [|y acc IH]; [done|].
  cbn [JsSet.add]. destruct (decide (row_ref y = row_ref x)) as [Heq|Hne];
    rewrite !fmap_cons.
  - rewrite decide_True; [done|]. rewrite Heq. by left.
  - rewrite IH. destruct (decide (row_ref x ∈ row_ref <$> acc)).
    + rewrite decide_True; [done|]. by right.
    + rewrite decide_False; [done|]. intros [?|?]%elem_of_cons; done.
Qed.

Lemma NoDup_refs_add x acc :
  NoDup (row_ref <$> acc) → NoDup (row_ref <$> JsSet.add x acc).
Proof.
  intros Hnd. rewrite refs_add. case_decide; [done|].
  apply NoDup_app. split_and!; [done| |apply NoDup_singleton].
  by intros ? ? ->%list_elem_of_singleton.
Qed.

Lemma NoDup_refs_add_stops found acc :
  NoDup (row_ref <$> acc) → NoDup (row_ref <$> add_stops found acc).
Proof.
  revert acc. induction found as [|[r|] found IH]; intros acc Hnd; [done| |].
  - rewrite add_stops_cons_Some. by apply IH, NoDup_refs_add.
  - rewrite add_stops_cons_None. by apply IH.
Qed.

Lemma elem_of_add_stops found acc r :
  r ∈ add_stops found acc → r ∈ acc ∨ Some r ∈ found.
Proof.
  revert acc. induction found as [|[x|] found IH]; intros acc; [by left| |].
  - rewrite add_stops_cons_Some.
    intros [[->|?]%elem_of_add|?]%IH; [right; by left|by left|right; by right].
  - rewrite add_stops_cons_None. intros [?|?]%IH; [by left|right; by right].
Qed.

Lemma add_stops_mono found acc r : r ∈ acc → r ∈ add_stops found acc.
Proof.
  revert acc. induction found as [|[x|] found IH]; intros acc Hin; [done| |].
  - rewrite add_stops_cons_Some. by apply IH, add_mono.
  - rewrite add_stops_cons_None. by apply IH.
Qed.

Lemma add_stops_has_ref found acc r :
  Some r ∈ found → ∃ y, y ∈ add_stops found acc ∧ row_ref y = row_ref r.
Proof.
  revert acc. induction found as [|o found IH]; intros acc;
    [by intros ?%elem_of_nil|].
  intros [<-|Hin]%elem_of_cons.
  - rewrite add_stops_cons_Some.
    destruct (add_has_ref r acc) as (y & Hy & Hr).
    exists y. split; [by apply add_stops_mono|done].
  - destruct o; [rewrite add_stops_cons_Some|rewrite add_stops_cons_None];
      by apply IH.
Qed.

End JsSet_facts.

Section join_facts.

Variable s : Store.

Implicit Types (r trip stopTime : Row) (routeId : string).

Lemma elem_of_routeTrips routeId trip :
  trip ∈ routeTrips s routeId ↔
  trip ∈ JsMap.values (st_trips s) ∧ route_id trip = Some routeId.
Proof.
  unfold routeTrips.
  by rewrite list_elem_of_In, filter_In, <-list_elem_of_In, strict_eq_true.
Qed.

Lemma elem_of_tripStops trip o :
  o ∈ tripStops s trip ↔
  ∃ stopTime, stopTime ∈ JsMap.values (st_stop_times s) ∧
              trip_id stopTime = trip_id trip ∧
              JsMap.get_value (stop_id stopTime) (st_stops s) = o.
Proof.
  unfold tripStops. rewrite list_elem_of_In, in_map_iff. split.
  - intros (st & <- & Hin). exists st.
    apply filter_In in Hin as [Hin Heq].
    by rewrite list_elem_of_In, <-strict_eq_true.
  - intros (st & Hin & Heq & <-). exists st. split; [done|].
    apply filter_In. by rewrite <-list_elem_of_In, strict_eq_true.
Qed.

Lemma NoDup_refs_collect trips acc :
  NoDup (row_ref <$> acc) → NoDup (row_ref <$> collect s trips acc).
Proof.
  revert acc. induction trips as [|trip trips IH]; intros acc Hnd; [done|].
  by apply IH, NoDup_refs_add_stops.
Qed.

Lemma elem_of_collect trips acc r :
  r ∈ collect s trips acc →
  r ∈ acc ∨ ∃ trip, trip ∈ trips ∧ Some r ∈ tripStops s trip.
Proof.
  revert acc. induction trips as [|trip trips IH]; intros acc; [by left|].
  intros [[?|?]%elem_of_add_stops|(t & Ht & Hr)]%IH.
  - by left.
  - right. exists trip. split; [by left|done].
  - right. exists t. split; [by right|done].
Qed.

Lemma collect_mono trips acc r : r ∈ acc → r ∈ collect s trips acc.
Proof.
  revert acc. induction trips as [|trip trips IH]; intros acc Hin; [done|].
  by apply IH, add_stops_mono.
Qed.

Lemma collect_has_ref trips acc trip r :
  trip ∈ trips → Some r ∈ tripStops s trip →
  ∃ y, y ∈ collect s trips acc ∧ row_ref y = row_ref r.
Proof.
  revert acc. induction trips as [|t trips IH]; intros acc;
    [by intros ?%elem_of_nil|].
  intros [->|Hin]%elem_of_cons Hr.
  - destruct (add_stops_has_ref (tripStops s t) acc r Hr) as (y & Hy & Hyr).
    exists y. split; [|done].
    by apply (collect_mono trips (add_stops (tripStops s t) acc)).
  - by apply (IH (add_stops (tripStops s t) acc)).
Qed.

Lemma NoDup_refs_stopsForRoute routeId :
  NoDup (row_ref <$> stopsForRoute s routeId).
Proof. apply NoDup_refs_collect, NoDup_nil_2. Qed.

(** Every row of the answer is a stop that some stop time of some trip
    of the route resolves to. *)
Lemma stopsForRoute_sound routeId r :
  r ∈ stopsForRoute s routeId →
  ∃ trip stopTime,
    trip ∈ JsMap.values (st_trips s) ∧ route_id trip = Some routeId ∧
    stopTime ∈ JsMap.values (st_stop_times s) ∧
    trip_id stopTime = trip_id trip ∧
    JsMap.get_value (stop_id stopTime) (st_stops s) = Some r.
Proof.
  intros [Hin|(trip & Ht & Hr)]%elem_of_collect; [by apply elem_of_nil in Hin|].
  apply elem_of_routeTrips in Ht as [Ht Hroute].
  apply elem_of_tripStops in Hr as (st & Hst & Htrip & Hget).
  by exists trip, st.
Qed.

(** Every such stop is answered, up to the identity of the row. *)
Lemma stopsForRoute_complete routeId trip stopTime r :
  trip ∈ JsMap.values (st_trips s) → route_id trip = Some routeId →
  stopTime ∈ JsMap.values (st_stop_times s) →
  trip_id stopTime = trip_id trip →
  JsMap.get_value (stop_id stopTime) (st_stops s) = Some r →
  ∃ y, y ∈ stopsForRoute s routeId ∧ row_ref y = row_ref r.
Proof.
  intros Ht Hroute Hst Htrip Hget.
  apply (collect_has_ref _ _ trip).
  - by apply elem_of_routeTrips.
  - apply elem_of_tripStops. by exists stopTime.
Qed.

End join_facts.

(** ** What the loader leaves in the store *)

Lemma collection_with_collection_eq dk m s :
  collection dk (with_collection dk m s) = m.
Proof. by destruct dk. Qed.

Lemma collection_with_collection_ne dk dk' m s :
  dk ≠ dk' → collection dk' (with_collection dk m s) = collection dk' s.
Proof. by destruct dk, dk'. Qed.

Lemma elem_of_fileMapping f dk : (f, dk) ∈ fileMapping ↔ f = file_of dk.
Proof.
  unfold fileMapping. rewrite !elem_of_cons, elem_of_nil. split.
  - intros [H|[H|[H|[H|[H|[]]]]]]; by injection H as -> ->.
  - intros ->. destruct dk; simpl; tauto.
Qed.

Lemma file_of_inj dk dk' : file_of dk = file_of dk' → dk = dk'.
Proof. by destruct dk, dk'. Qed.

Lemma fileMapping_file_of_key f f' dk :
  (f, dk) ∈ fileMapping → (f', dk) ∈ fileMapping → f = f'.
Proof. rewrite !elem_of_fileMapping. congruence. Qed.

Lemma fileMapping_key_of_file f dk dk' :
  (f, dk) ∈ fileMapping → (f, dk') ∈ fileMapping → dk = dk'.
Proof.
  rewrite !elem_of_fileMapping. intros -> H. by apply file_of_inj.
Qed.

Lemma elem_of_set k v m e : e ∈ JsMap.set k v m → e = (k, v) ∨ e ∈ m.
Proof.
  induction m as [|[k' v'] m IH]; simpl.
  - intros ->%list_elem_of_singleton. by left.
  - case_decide; rewrite !elem_of_cons.
    + intros [->|?]; [by left|right; by right].
    + intros [->|[->|?]%IH]; [right; by left|by left|right; by right].
Qed.

Lemma elem_of_load_rows fileName rows m k r :
  (k, r) ∈ load_rows fileName rows m →
  (derives fileName k r ∧ r ∈ rows) ∨ (k, r) ∈ m.
Proof.
  revert m. induction rows as [|row rows IH]; intros m; [by right|].
  rewrite load_rows_cons. intros [[Hd Hin]|Hin]%IH.
  - left. split; [done|by right].
  - destruct (on_data_cases fileName row m) as [(k' & Hd & Heq)|[_ Heq]];
      rewrite Heq in Hin; [|by right].
    apply elem_of_set in Hin as [[= -> ->]|Hin]; [|by right].
    left. split; [done|by left].
Qed.

Lemma read_rows_ref_inj fileName file r r' :
  r ∈ read_rows fileName file → r' ∈ read_rows fileName file →
  row_ref r = row_ref r' → r = r'.
Proof.
  unfold read_rows.
  intros (i & x & -> & Hi)%elem_of_lookup_imap
         (j & y & -> & Hj)%elem_of_lookup_imap [= ->].
  congruence.
Qed.

Lemma loaded_empty w : gtfsData w = gtfsData0 → loaded w.
Proof.
  intros Hs f dk k r _. rewrite Hs. destruct dk; by intros ?%elem_of_nil.
Qed.

Lemma load_files_loaded files w :
  files ⊆ fileMapping → loaded w → loaded (load_files files w).2.
Proof.
  revert w. induction files as [|[f dk] files IH]; intros w Hsub Hw; [done|].
  assert ((f, dk) ∈ fileMapping) as Hf by (apply Hsub; by left).
  assert (files ⊆ fileMapping) as Hsub' by (intros x Hx; apply Hsub; by right).
  cbn [load_files].
  destruct (lookup_file f w) as [file|] eqn:Hlook.
  - match goal with
    | |- context [say _ ?w1] =>
        assert (loaded w1) as Hw1; [|by destruct (file_end file); [apply IH|..]]
    end.
    intros f' dk' k r Hf' Hin. cbn [gtfsData set_gtfsData] in Hin.
    change (lookup_file f' (set_gtfsData _ w)) with (lookup_file f' w).
    destruct (decide (dk = dk')) as [<-|Hne].
    + rewrite collection_with_collection_eq in Hin.
      rewrite <-(fileMapping_file_of_key _ _ _ Hf Hf').
      apply elem_of_load_rows in Hin as [[Hd Hin]|Hin].
      * split; [done|]. by exists file.
      * by apply (Hw f dk).
    + rewrite collection_with_collection_ne in Hin by done.
      by apply (Hw f' dk').
  - by apply IH.
Qed.

Lemma gtfsData_checkGTFSDirectory h w :
  gtfsData (checkGTFSDirectory h w).2 = gtfsData w.
Proof.
  unfold checkGTFSDirectory. destruct (fs w); [done|].
  by destruct (mkdir_fails h).
Qed.

Lemma gtfsData_createSampleGTFSFiles h w :
  gtfsData (createSampleGTFSFiles h w) = gtfsData w.
Proof.
  unfold createSampleGTFSFiles. revert w.
  induction sampleData as [|[name text] l IH]; intros w; [done|].
  cbn [foldl]. rewrite IH.
  destruct (lookup_file name w); [done|]. by destruct (write_fails h name).
Qed.

Lemma gtfsData_seed h w : gtfsData (seed h w) = gtfsData w.
Proof.
  unfold seed. case_decide; [|done]. by rewrite gtfsData_createSampleGTFSFiles.
Qed.

(** The store after [loadGTFSData], started on the empty collections. *)
Lemma loadGTFSData_loaded h d : loaded (loadGTFSData h (boot d)).2.
Proof.
  unfold loadGTFSData.
  pose proof (gtfsData_checkGTFSDirectory h (boot d)) as Hc.
  destruct (checkGTFSDirectory h (boot d)) as [[|e] w1]; simpl in Hc.
  - destruct (unlistable w1); [by apply loaded_empty|].
    assert (loaded (seed h w1)) as Hw2.
    { apply loaded_empty. by rewrite gtfsData_seed. }
    pose proof (load_files_loaded fileMapping _ (reflexivity _) Hw2) as Hl.
    unfold rethrow. by destruct (load_files fileMapping _) as [[|e] w3].
  - by apply loaded_empty.
Qed.

(** ** Stops of a route in a loaded store *)

Lemma filter_none {A} (P : A → Prop) `{∀ x, Decision (P x)} (l : list A) :
  (∀ z, z ∈ l → ¬ P z) → filter P l = [].
Proof.
  induction l as [|b l IH]; intros Hno; [done|].
  rewrite filter_cons_False by (apply Hno; by left).
  apply IH. intros z Hz. apply Hno. by right.
Qed.

Lemma length_filter_NoDup_fmap {A B} `{EqDecision B} (f : A → B) (l : list A) x :
  NoDup (f <$> l) → x ∈ l → length (filter (λ y, f y = f x) l) = 1.
Proof.
  induction l as [|a l IH]; [by intros _ ?%elem_of_nil|].
  rewrite fmap_cons. intros [Ha Hnd]%NoDup_cons Hx.
  assert (∀ z, z ∈ l → f z ≠ f a) as Hfresh.
  { intros z Hz Heq. apply Ha. rewrite <-Heq. by apply list_elem_of_fmap_2. }
  apply elem_of_cons in Hx as [->|Hx].
  - rewrite filter_cons_True by done. by rewrite filter_none.
  - rewrite filter_cons_False; [by apply IH|].
    intros Heq. by apply (Hfresh x).
Qed.

(** In a store whose stops are keyed by their [stop_id], the answer holds
    no [stop_id] twice. *)
Lemma stopsForRoute_stop_ids_NoDup s routeId :
  (∀ k r, (k, r) ∈ st_stops s → stop_id r = Some k) →
  NoDup (stop_id <$> stopsForRoute s routeId).
Proof.
  intros Hkeyed.
  assert (∀ r, r ∈ stopsForRoute s routeId →
               ∃ k, stop_id r = Some k ∧ JsMap.get k (st_stops s) = Some r)
    as Hres.
  { intros r (trip & st & _ & _ & _ & _ & Hget)%stopsForRoute_sound.
    destruct (stop_id st) as [k|]; [|done]. simpl in Hget.
    exists k. split; [|done]. by apply Hkeyed, get_Some_elem_of. }
  apply NoDup_fmap_2_strong.
  - intros x y (kx & Hx & Hgx)%Hres (ky & Hy & Hgy)%Hres Heq.
    rewrite Hx, Hy in Heq. injection Heq as ->. congruence.
  - apply (NoDup_fmap_1 row_ref), NoDup_refs_stopsForRoute.
Qed.

(** A loaded store holds each row object once per collection. *)
Lemma loaded_ref_inj w fileName dataKey r r' :
  loaded w → (fileName, dataKey) ∈ fileMapping →
  r ∈ JsMap.values (collection dataKey (gtfsData w)) →
  r' ∈ JsMap.values (collection dataKey (gtfsData w)) →
  row_ref r = row_ref r' → r = r'.
Proof.
  intros Hw Hf ([k x] & -> & Hin)%list_elem_of_fmap_1
               ([k' x'] & -> & Hin')%list_elem_of_fmap_1; simpl.
  destruct (Hw _ _ _ _ Hf Hin) as (_ & file & Hfile & Hx).
  destruct (Hw _ _ _ _ Hf Hin') as (_ & file' & Hfile' & Hx').
  assert (file' = file) as -> by congruence.
  by apply (read_rows_ref_inj fileName file).
Qed.

(** **** C2 — each stop once

    In the store that the loader leaves, whatever the directory held,
    the stops answered for a route carry pairwise distinct [stop_id]s;
    and a stop that a stop time of a trip of the route resolves to is
    answered exactly once, however many trips and stop times name it. *)
Theorem C2_stops_deduplicated (h : Host) (d : option Dir) (routeId : string) :
  let s := gtfsData (loadGTFSData h (boot d)).2 in
  NoDup (stop_id <$> stopsForRoute s routeId) ∧
  ∀ trip stopTime stop,
    trip ∈ JsMap.values (st_trips s) → route_id trip = Some routeId →
    stopTime ∈ JsMap.values (st_stop_times s) →
    trip_id stopTime = trip_id trip →
    JsMap.get_value (stop_id stopTime) (st_stops s) = Some stop →
    length (filter (λ r, stop_id r = stop_id stop) (stopsForRoute s routeId)) = 1.
Proof.
  intros s.
  pose proof (loadGTFSData_loaded h d) as Hw. fold s in Hw.
  assert (("stops.txt", stops) ∈ fileMapping) as Hf by (by apply elem_of_fileMapping).
  assert (NoDup (stop_id <$> stopsForRoute s routeId)) as Hnd.
  { apply stopsForRoute_stop_ids_NoDup. intros k r Hin.
    destruct (Hw _ _ _ _ Hf Hin) as [[Hk _] _].
    by rewrite (getPrimaryKey_key_field "stops.txt" "stop_id") in Hk. }
  split; [done|].
  intros trip st stop Ht Hroute Hst Htrip Hget.
  apply length_filter_NoDup_fmap; [done|].
  destruct (stopsForRoute_complete s routeId trip st stop) as (y & Hy & Href);
    [done..|].
  assert (y = stop) as <-; [|done].
  apply (loaded_ref_inj _ _ _ _ _ Hw Hf); [| |done].
  - apply stopsForRoute_sound in Hy as (_ & st' & _ & _ & _ & _ & Hy).
    destruct (stop_id st'); [|done]. by apply get_Some_values in Hy.
  - destruct (stop_id st); [|done]. by apply get_Some_values in Hget.
Qed.

Lemma C2_stops_deduplicated_witness :
  NoDup (stop_id <$> stopsForRoute Loop.store "R1") ∧
  length (filter (λ r, stop_id r = stop_id Loop.stop)
            (stopsForRoute Loop.store "R1")) = 1.
Proof.
  destruct (C2_stops_deduplicated Loop.host (Some Loop.dir) "R1") as [Hnd Hone].
  split; [exact Hnd|].
  apply (Hone Loop.trip Loop.stopTime Loop.stop).
  - apply (bool_decide_unpack _). vm_compute. exact I.
  - reflexivity.
  - apply (bool_decide_unpack _). vm_compute. exact I.
  - reflexivity.
  - reflexivity.
Defined.

Example stops_of_R1 :
  stop_id <$> stopsForRoute Loop.store "R1" = [Some "S1"; Some "S2"].
Proof. reflexivity. Qed.

(** ** The loop over the files *)

Lemma load_files_cons f dk files w :
  load_files ((f, dk) :: files) w =
  match lookup_file f w with
  | None => load_files files (say (Warn ("Missing file: " +:+ f)) w)
  | Some file =>
      match failure f (file_end file) with
      | None =>
          load_files files
            (say (Log ("Successfully loaded " +:+ f)) (store_rows f dk file w))
      | Some e =>
          (Throw e,
           say (Error ("Failed to load " +:+ f +:+ ": " +:+ e)) (store_rows f dk file w))
      end
  end.
Proof.
  cbn [load_files]. destruct (lookup_file f w) as [file|]; [|done].
  by destruct (file_end file).
Qed.

Lemma failure_None f e : failure f e = None ↔ e = End.
Proof. by destruct e. Qed.

Section load_files_facts.

Implicit Types (files : list (string * DataKey)) (w : World).

Lemma collection_store_rows_eq f dk file w :
  collection dk (gtfsData (store_rows f dk file w)) =
  load_rows f (read_rows f file) (collection dk (gtfsData w)).
Proof. apply collection_with_collection_eq. Qed.

Lemma collection_store_rows_ne f dk dk' file w :
  dk ≠ dk' →
  collection dk' (gtfsData (store_rows f dk file w)) = collection dk' (gtfsData w).
Proof. apply collection_with_collection_ne. Qed.

Lemma console_load_files files w c :
  c ∈ console w → c ∈ console (load_files files w).2.
Proof.
  revert w. induction files as [|[f dk] files IH]; intros w Hc; [done|].
  assert (∀ c' w', console w' = console w → c ∈ console (say c' w')) as Hsay.
  { intros c' w' Hw'. cbn [say console]. rewrite Hw'.
    apply elem_of_app. by left. }
  rewrite load_files_cons. destruct (lookup_file f w) as [file|].
  - destruct (failure f (file_end file)).
    + by apply Hsay.
    + by apply IH, Hsay.
  - by apply IH, Hsay.
Qed.

(** A collection none of whose files is present is left as it was. *)
Lemma load_files_untouched files w dk :
  (∀ f, (f, dk) ∈ files → lookup_file f w = None) →
  collection dk (gtfsData (load_files files w).2) = collection dk (gtfsData w).
Proof.
  revert w. induction files as [|[f dk'] files IH]; intros w Hno; [done|].
  assert (∀ w', fs w' = fs w →
                ∀ f, (f, dk) ∈ files → lookup_file f w' = None) as Hrest.
  { intros w' Hw' f' Hf'. unfold lookup_file. rewrite Hw'.
    apply Hno. by right. }
  rewrite load_files_cons. destruct (lookup_file f w) as [file|] eqn:Hlook.
  - assert (dk' ≠ dk) as Hne.
    { intros ->. rewrite Hno in Hlook; [done|by left]. }
    destruct (failure f (file_end file)).
    + cbn [snd say gtfsData]. by apply collection_store_rows_ne.
    + rewrite IH by (by apply Hrest).
      cbn [say gtfsData]. by apply collection_store_rows_ne.
  - rewrite IH by (by apply Hrest). done.
Qed.

(** When every file is clean the loop ends well, ... *)
Lemma load_files_clean files w :
  (∀ f dk, (f, dk) ∈ files → clean w f) → (load_files files w).1 = Ok.
Proof.
  revert w. induction files as [|[f dk] files IH]; intros w Hclean; [done|].
  assert (∀ w', fs w' = fs w → ∀ f dk, (f, dk) ∈ files → clean w' f) as Hrest.
  { intros w' Hw' f' dk' Hf' file. unfold lookup_file. rewrite Hw'.
    apply (Hclean f' dk'). by right. }
  rewrite load_files_cons. destruct (lookup_file f w) as [file|] eqn:Hlook.
  - rewrite (Hclean f dk (ltac:(by left)) file Hlook). cbn [failure].
    by apply IH, Hrest.
  - by apply IH, Hrest.
Qed.

(** ... and the rows of each present file are loaded into its
    collection. *)
Lemma load_files_loads files w f dk file :
  (∀ f dk, (f, dk) ∈ files → clean w f) → NoDup files.*2 →
  (f, dk) ∈ files → lookup_file f w = Some file →
  collection dk (gtfsData (load_files files w).2) =
  load_rows f (read_rows f file) (collection dk (gtfsData w)).
Proof.
  revert w. induction files as [|[f' dk'] files IH];
    intros w Hclean Hnd Hin Hsome; [by apply elem_of_nil in Hin|].
  assert (∀ w', fs w' = fs w → ∀ f dk, (f, dk) ∈ files → clean w' f) as Hrest.
  { intros w' Hw' f0 dk0 Hf0 file0. unfold lookup_file. rewrite Hw'.
    apply (Hclean f0 dk0). by right. }
  rewrite fmap_cons in Hnd. apply NoDup_cons in Hnd as [Hfresh Hnd].
  rewrite load_files_cons.
  apply elem_of_cons in Hin as [[= <- <-]|Hin].
  - rewrite Hsome, (Hclean f dk (ltac:(by left)) file Hsome). cbn [failure].
    rewrite load_files_untouched.
    + apply collection_store_rows_eq.
    + intros f0 Hf0. destruct Hfresh.
      by apply (list_elem_of_fmap_2' snd _ (f0, dk)).
  - assert (dk' ≠ dk) as Hne.
    { intros ->. apply Hfresh. by apply (list_elem_of_fmap_2' snd _ (f, dk)). }
    destruct (lookup_file f' w) as [file'|] eqn:Hlook.
    + rewrite (Hclean f' dk' (ltac:(by left)) file' Hlook). cbn [failure].
      rewrite IH; [|by apply Hrest|done|done|done].
      cbn [say gtfsData]. by rewrite collection_store_rows_ne.
    + rewrite IH; [done|by apply Hrest|done|done|done].
Qed.

(** A present file whose stream fails makes the loop throw the error of
    such a file. *)
Lemma load_files_fails files w f dk file :
  (f, dk) ∈ files → lookup_file f w = Some file → file_end file ≠ End →
  ∃ f' dk' file' e,
    (f', dk') ∈ files ∧ lookup_file f' w = Some file' ∧
    failure f' (file_end file') = Some e ∧
    (load_files files w).1 = Throw e.
Proof.
  revert w. induction files as [|[f0 dk0] files IH]; intros w Hin Hsome Hbad;
    [by apply elem_of_nil in Hin|].
  rewrite load_files_cons.
  destruct (lookup_file f0 w) as [file0|] eqn:Hlook.
  - destruct (failure f0 (file_end file0)) as [e|] eqn:Hfail.
    + exists f0, dk0, file0, e. split_and!; [by left|done|done|done].
    + apply elem_of_cons in Hin as [[= -> ->]|Hin].
      { apply failure_None in Hfail. congruence. }
      destruct (IH (say (Log ("Successfully loaded " +:+ f0))
                      (store_rows f0 dk0 file0 w)) Hin Hsome Hbad)
        as (f' & dk' & file' & e & Hf' & Hl' & He & Hres).
      exists f', dk', file', e. split_and!; [by right|done|done|done].
  - apply elem_of_cons in Hin as [[= -> ->]|Hin]; [congruence|].
    destruct (IH (say (Warn ("Missing file: " +:+ f0)) w) Hin Hsome Hbad)
      as (f' & dk' & file' & e & Hf' & Hl' & He & Hres).
    exists f', dk', file', e. split_and!; [by right|done|done|done].
Qed.

(** The first file to fail is the one whose error is thrown. *)
Lemma load_files_first_failure pre post w f dk file e :
  (∀ f' dk', (f', dk') ∈ pre → clean w f') →
  lookup_file f w = Some file → failure f (file_end file) = Some e →
  (load_files (pre ++ (f, dk) :: post) w).1 = Throw e.
Proof.
  revert w. induction pre as [|[f0 dk0] pre IH]; intros w Hclean Hsome Hfail.
  - simpl app. by rewrite load_files_cons, Hsome, Hfail.
  - assert (∀ w', fs w' = fs w → ∀ f dk, (f, dk) ∈ pre → clean w' f) as Hrest.
    { intros w' Hw' f1 dk1 Hf1 file1. unfold lookup_file. rewrite Hw'.
      apply (Hclean f1 dk1). by right. }
    simpl app. rewrite load_files_cons.
    destruct (lookup_file f0 w) as [file0|] eqn:Hlook.
    + rewrite (Hclean f0 dk0 (ltac:(by left)) file0 Hlook). cbn [failure].
      apply IH; [by apply Hrest|done|done].
    + apply IH; [by apply Hrest|done|done].
Qed.

(** A missing file is warned about once the files before it went well. *)
Lemma load_files_warns pre post w f dk :
  (∀ f' dk', (f', dk') ∈ pre → clean w f') →
  lookup_file f w = None →
  Warn ("Missing file: " +:+ f) ∈
    console (load_files (pre ++ (f, dk) :: post) w).2.
Proof.
  revert w. induction pre as [|[f0 dk0] pre IH]; intros w Hclean Hnone.
  - simpl app. rewrite load_files_cons, Hnone. apply console_load_files.
    cbn [say console]. apply elem_of_app. right. by left.
  - assert (∀ w', fs w' = fs w → ∀ f dk, (f, dk) ∈ pre → clean w' f) as Hrest.
    { intros w' Hw' f1 dk1 Hf1 file1. unfold lookup_file. rewrite Hw'.
      apply (Hclean f1 dk1). by right. }
    simpl app. rewrite load_files_cons.
    destruct (lookup_file f0 w) as [file0|] eqn:Hlook.
    + rewrite (Hclean f0 dk0 (ltac:(by left)) file0 Hlook). cbn [failure].
      apply IH; [by apply Hrest|done].
    + apply IH; [by apply Hrest|done].
Qed.

End load_files_facts.

(** ** A file that is missing, against the same file present *)

Section absent_present.

Variables (f : string) (dk : DataKey) (file : File) (d : Dir).

Hypothesis missing : d !! f = None.
Hypothesis ends_well : file_end file = End.

Lemma alike_say c c' w w' : alike f dk file d w w' → alike f dk file d (say c w) (say c' w').
Proof. done. Qed.

Lemma alike_lookup_ne f' w w' :
  alike f dk file d w w' → f' ≠ f → lookup_file f' w' = lookup_file f' w.
Proof.
  intros (Hw & Hw' & _) Hne. unfold lookup_file. rewrite Hw, Hw'; simpl.
  by apply lookup_insert_ne.
Qed.

Lemma alike_store_rows f' dk' file' w w' :
  alike f dk file d w w' → dk' ≠ dk →
  alike f dk file d (store_rows f' dk' file' w) (store_rows f' dk' file' w').
Proof.
  intros (Hw & Hw' & Hs) Hne. split_and!; [done|done|].
  intros dk0 Hdk0. destruct (decide (dk' = dk0)) as [<-|Hne0].
  - rewrite !collection_store_rows_eq. by rewrite Hs.
  - rewrite !collection_store_rows_ne by done. by apply Hs.
Qed.

Lemma load_files_alike files w w' :
  (∀ f' dk', (f', dk') ∈ files → (f' = f ↔ dk' = dk)) →
  alike f dk file d w w' →
  (load_files files w).1 = (load_files files w').1 ∧
  ∀ dk', dk' ≠ dk →
    collection dk' (gtfsData (load_files files w).2) =
    collection dk' (gtfsData (load_files files w').2).
Proof.
  revert w w'. induction files as [|[f0 dk0] files IH]; intros w w' Hmap Hal.
  { split; [done|]. by destruct Hal as (_ & _ & ?). }
  assert (∀ f' dk', (f', dk') ∈ files → (f' = f ↔ dk' = dk)) as Hmap'.
  { intros f' dk' Hin. apply Hmap. by right. }
  rewrite !load_files_cons.
  destruct (decide (f0 = f)) as [->|Hne].
  - assert (dk0 = dk) as -> by (apply (Hmap f dk0); [by left|done]).
    assert (lookup_file f w = None) as ->.
    { destruct Hal as (Hw & _). unfold lookup_file. by rewrite Hw. }
    assert (lookup_file f w' = Some file) as ->.
    { destruct Hal as (_ & Hw' & _). unfold lookup_file. rewrite Hw'; simpl.
      apply lookup_insert_eq. }
    rewrite ends_well. cbn [failure]. apply IH; [done|].
    destruct Hal as (Hw & Hw' & Hs). split_and!; [done|done|].
    intros dk' Hdk'. cbn [say gtfsData].
    rewrite collection_store_rows_ne by done. by apply Hs.
  - assert (dk0 ≠ dk) as Hdk.
    { intros ->. apply Hne, (Hmap f0 dk); [by left|done]. }
    rewrite (alike_lookup_ne f0 w w' Hal Hne).
    destruct (lookup_file f0 w) as [file0|].
    + pose proof (alike_store_rows f0 dk0 file0 w w' Hal Hdk) as Hal'.
      destruct (failure f0 (file_end file0)).
      * split; [done|]. by destruct Hal' as (_ & _ & ?).
      * apply IH; [done|]. by apply alike_say.
    + apply IH; [done|]. by apply alike_say.
Qed.

End absent_present.

(** ** [loadGTFSData] and [initializeServer] on a directory with files *)

Lemma loadGTFSData_populated h d :
  size d ≠ 0 →
  loadGTFSData h (boot (Some d)) = rethrow (load_files fileMapping (boot (Some d))).
Proof.
  intros Hne. unfold loadGTFSData, seed.
  cbn [checkGTFSDirectory boot start fs default unlistable].
  by rewrite decide_False.
Qed.

(** A path that is missing or can be listed still can be listed once
    [checkGTFSDirectory] is done. *)
Lemma unlistable_checkGTFSDirectory h d0 w1 :
  checkGTFSDirectory h (boot d0) = (Ok, w1) → unlistable w1 = None.
Proof.
  unfold checkGTFSDirectory. destruct d0 as [d|]; simpl.
  - by intros [= <-].
  - destruct (mkdir_fails h); [done|]. by intros [= <-].
Qed.

Lemma loadGTFSData_at_loop h d0 w1 :
  checkGTFSDirectory h (boot d0) = (Ok, w1) →
  loadGTFSData h (boot d0) = rethrow (load_files fileMapping (seed h w1)).
Proof.
  intros Hc. unfold loadGTFSData.
  by rewrite Hc, (unlistable_checkGTFSDirectory h d0 w1 Hc).
Qed.

Lemma checkGTFSDirectory_exists h d w :
  fs w = Some d → checkGTFSDirectory h w = (Ok, w).
Proof. intros Hd. unfold checkGTFSDirectory. by rewrite Hd. Qed.

Lemma seed_populated h d w : fs w = Some d → size d ≠ 0 → seed h w = w.
Proof. intros Hd Hne. unfold seed. rewrite Hd. by rewrite decide_False. Qed.

Lemma rethrow_fst r :
  (rethrow r).1 =
  match r.1 with
  | Ok => Ok
  | Throw e => Throw ("GTFS data loading failed: " +:+ e)
  end.
Proof. by destruct r as [[|e] w]. Qed.

Lemma rethrow_snd r : (rethrow r).2 = r.2.
Proof. by destruct r as [[|e] w]. Qed.

Lemma initializeServer_aborts h w e :
  (loadGTFSData h w).1 = Throw e →
  process (initializeServer h w) = Exited 1 ∧
  Error ("Server initialization failed: " +:+ e) ∈ console (initializeServer h w).
Proof.
  unfold initializeServer. destruct (loadGTFSData h w) as [[|e'] w1]; [done|].
  intros [= ->]. split; [done|].
  unfold startup_failed. cbn [set_process say console]. rewrite !elem_of_app.
  do 5 left. right. by left.
Qed.

(** After a load that went well the outcome is that of [app.listen]. *)
Lemma initializeServer_listens h w :
  (loadGTFSData h w).1 = Ok →
  process (initializeServer h w) =
    match listen_fails h with
    | None => Listening (port h)
    | Some _ => Exited 1
    end ∧
  gtfsData (initializeServer h w) = gtfsData (loadGTFSData h w).2.
Proof.
  unfold initializeServer. destruct (loadGTFSData h w) as [[|e'] w1]; [|done].
  by destruct (listen_fails h).
Qed.

Lemma fileMapping_alike f dk :
  (f, dk) ∈ fileMapping →
  ∀ f' dk', (f', dk') ∈ fileMapping → (f' = f ↔ dk' = dk).
Proof.
  intros Hf f' dk' Hf'. split.
  - intros ->. by apply (fileMapping_key_of_file f).
  - intros ->. by apply (fileMapping_file_of_key _ _ dk).
Qed.

Lemma NoDup_fileMapping_keys : NoDup fileMapping.*2.
Proof. by apply (bool_decide_unpack _). Qed.

(** **** C8 — a missing file is not fatal

    Let the data directory exist or be created, and let the required file
    [fileName] be missing when the loop over the files starts (after the
    sample files were written, had the directory been empty).  Then the
    collection of that file stays empty; the warning for [fileName] is on
    the console as soon as the files before it went well; and when no
    present file fails, the load ends well, each present file is loaded
    into its collection, and the server listens, unless [app.listen]
    itself throws, which ends the process with status 1; either way the
    store is the loaded one.  Moreover, for a directory that holds other
    entries, the load ends as it would with [fileName] present and
    well-formed, with the same contents in every other collection, so
    that the route and stop listings answer alike unless [fileName] is
    their own file. *)
Theorem C8_missing_file_not_fatal
    (h : Host) (d0 : option Dir) (w1 : World) (fileName : string)
    (dataKey : DataKey) :
  (fileName, dataKey) ∈ fileMapping →
  checkGTFSDirectory h (boot d0) = (Ok, w1) →
  lookup_file fileName (seed h w1) = None →
  let without := loadGTFSData h (boot d0) in
  collection dataKey (gtfsData without.2) = JsMap.empty ∧
  (∀ pre post,
     fileMapping = (pre ++ (fileName, dataKey) :: post)%list →
     (∀ f dk, (f, dk) ∈ pre → clean (seed h w1) f) →
     Warn ("Missing file: " +:+ fileName) ∈ console without.2) ∧
  ((∀ f dk, (f, dk) ∈ fileMapping → clean (seed h w1) f) →
     without.1 = Ok ∧
     process (initializeServer h (boot d0)) =
       match listen_fails h with
       | None => Listening (port h)
       | Some _ => Exited 1
       end ∧
     gtfsData (initializeServer h (boot d0)) = gtfsData without.2 ∧
     ∀ f dk file,
       (f, dk) ∈ fileMapping → lookup_file f (seed h w1) = Some file →
       collection dk (gtfsData without.2) =
       load_rows f (read_rows f file) JsMap.empty) ∧
  (∀ d rows,
     d0 = Some d → size d ≠ 0 →
     let with_it :=
       loadGTFSData h (boot (Some (<[fileName := mkFile rows End]> d))) in
     without.1 = with_it.1 ∧
     (∀ dk, dk ≠ dataKey →
        collection dk (gtfsData without.2) = collection dk (gtfsData with_it.2)) ∧
     (dataKey ≠ routes →
        get_api_routes (gtfsData without.2) = get_api_routes (gtfsData with_it.2)) ∧
     (dataKey ≠ stops →
        get_api_stops (gtfsData without.2) = get_api_stops (gtfsData with_it.2))).
Proof.
  intros Hf Hcheck Hnone without.
  assert (gtfsData (seed h w1) = gtfsData0) as Hstore.
  { rewrite gtfsData_seed.
    pose proof (gtfsData_checkGTFSDirectory h (boot d0)) as Hc.
    by rewrite Hcheck in Hc. }
  unfold without. rewrite (loadGTFSData_at_loop h _ w1 Hcheck).
  rewrite !rethrow_fst, !rethrow_snd.
  split_and!.
  - rewrite load_files_untouched; [by rewrite Hstore; destruct dataKey|].
    intros f' Hf'. by rewrite (fileMapping_file_of_key _ _ _ Hf' Hf).
  - intros pre post -> Hclean. by apply load_files_warns.
  - intros Hclean.
    assert ((load_files fileMapping (seed h w1)).1 = Ok) as Hok
      by (by apply load_files_clean).
    assert ((loadGTFSData h (boot d0)).1 = Ok) as Hload
      by (by rewrite (loadGTFSData_at_loop h _ w1 Hcheck), rethrow_fst, Hok).
    destruct (initializeServer_listens h _ Hload) as [Hproc Hdata].
    split_and!.
    + by rewrite Hok.
    + done.
    + by rewrite Hdata, (loadGTFSData_at_loop h _ w1 Hcheck), rethrow_snd.
    + intros f dk file Hin Hfile.
      rewrite (load_files_loads fileMapping _ f dk file);
        [by rewrite Hstore; destruct dk|done|apply NoDup_fileMapping_keys|done|done].
  - intros d rows -> Hsize.
    rewrite (checkGTFSDirectory_exists h d) in Hcheck by done.
    injection Hcheck as <-.
    rewrite (seed_populated h d) in * by done.
    assert (d !! fileName = None) as Hmiss by done.
    assert (size (<[fileName := mkFile rows End]> d) ≠ 0) as Hsize'.
    { rewrite map_size_insert_None by done. lia. }
    rewrite (loadGTFSData_populated h _ Hsize').
    rewrite !rethrow_fst, !rethrow_snd.
    destruct (load_files_alike fileName dataKey (mkFile rows End) d Hmiss eq_refl
                fileMapping (boot (Some d))
                (boot (Some (<[fileName := mkFile rows End]> d))))
      as [Hres Hcoll]; [by apply fileMapping_alike|done|].
    split_and!.
    + by rewrite Hres.
    + done.
    + intros Hne. unfold get_api_routes, listRoutes.
      pose proof (Hcoll routes (not_eq_sym Hne)) as Hr.
      cbn [collection] in Hr. by rewrite Hr.
    + intros Hne. unfold get_api_stops, listStops.
      pose proof (Hcoll stops (not_eq_sym Hne)) as Hr.
      cbn [collection] in Hr. by rewrite Hr.
Qed.

Lemma C8_missing_file_not_fatal_witness :
  let without := loadGTFSData Partial.host (boot (Some Partial.dir)) in
  let with_it :=
    loadGTFSData Partial.host
      (boot (Some (<["calendar.txt" := mkFile Partial.calendar_rows End]> Partial.dir))) in
  st_calendar (gtfsData without.2) = [] ∧
  Warn "Missing file: calendar.txt" ∈ console without.2 ∧
  without.1 = Ok ∧
  process (initializeServer Partial.host (boot (Some Partial.dir))) = Listening "3000" ∧
  get_api_routes (gtfsData without.2) = get_api_routes (gtfsData with_it.2) ∧
  get_api_stops (gtfsData without.2) = get_api_stops (gtfsData with_it.2).
Proof.
  assert (∀ f dk, (f, dk) ∈ fileMapping →
                  clean (seed Partial.host (boot (Some Partial.dir))) f)
    as Hclean.
  { intros f dk Hin file. apply elem_of_fileMapping in Hin as ->.
    destruct dk; vm_compute; intros [= <-]; reflexivity. }
  destruct (C8_missing_file_not_fatal Partial.host (Some Partial.dir)
              (boot (Some Partial.dir)) "calendar.txt" calendar)
    as (Hempty & Hwarn & Hall & Hsame).
  - apply (bool_decide_unpack _). vm_compute. exact I.
  - reflexivity.
  - reflexivity.
  - destruct (Hall Hclean) as (Hok & Hlisten & _ & _).
    destruct (Hsame Partial.dir Partial.calendar_rows eq_refl)
      as (_ & _ & Hroutes & Hstops); [vm_compute; discriminate|].
    split_and!;
      [exact Hempty| |exact Hok|exact Hlisten|by apply Hroutes|by apply Hstops].
    apply (Hwarn [("routes.txt", routes); ("stops.txt", stops);
                  ("trips.txt", trips); ("stop_times.txt", stop_times)] []);
      [reflexivity|].
    intros f dk Hin. apply (Hclean f dk).
    unfold fileMapping. rewrite !elem_of_cons in Hin. rewrite !elem_of_cons. tauto.
Defined.

(** **** C9 — a failing file aborts start-up

    When a required file is present and its stream fails, while reading
    or while parsing, [loadGTFSData] throws; the message is the fixed
    prefix followed by the error of a required file that fails, which
    contains that file's name (it is [fileName] itself when no other
    required file fails); and [initializeServer] leaves the process
    exited with status 1, never listening. *)
Theorem C9_failing_file_aborts_startup
    (h : Host) (d : Dir) (fileName : string) (dataKey : DataKey) (file : File) :
  (fileName, dataKey) ∈ fileMapping →
  d !! fileName = Some file →
  file_end file ≠ End →
  ∃ f' file' e,
    required f' ∧ d !! f' = Some file' ∧
    failure f' (file_end file') = Some e ∧
    (∃ a b, e = a +:+ f' +:+ b) ∧
    (loadGTFSData h (boot (Some d))).1 =
      Throw ("GTFS data loading failed: " +:+ e) ∧
    process (initializeServer h (boot (Some d))) = Exited 1 ∧
    ((∀ f0 dk0, (f0, dk0) ∈ fileMapping → f0 ≠ fileName →
                clean (boot (Some d)) f0) → f' = fileName).
Proof.
  intros Hf Hfile Hbad.
  assert (size d ≠ 0) as Hsize.
  { intros Hz%map_size_empty_iff. by rewrite Hz in Hfile. }
  destruct (load_files_fails fileMapping (boot (Some d)) fileName dataKey file)
    as (f' & dk' & file' & e & Hf' & Hfile' & He & Hres); [done..|].
  assert ((loadGTFSData h (boot (Some d))).1 =
          Throw ("GTFS data loading failed: " +:+ e)) as Hload.
  { by rewrite (loadGTFSData_populated h d Hsize), rethrow_fst, Hres. }
  exists f', file', e. split_and!; [|done|done| |done| |].
  - by apply (list_elem_of_fmap_2' fst _ (f', dk')).
  - destruct (file_end file') as [|m|m]; [done|..]; injection He as <-.
    + by exists "Error reading ", (": " +:+ m).
    + by exists "Error parsing ", (": " +:+ m).
  - by destruct (initializeServer_aborts h _ _ Hload).
  - intros Hclean. destruct (decide (f' = fileName)) as [|Hne]; [done|].
    rewrite (Hclean f' dk' Hf' Hne file' Hfile') in He. done.
Qed.

Lemma C9_failing_file_aborts_startup_witness :
  ∃ f' file' e,
    required f' ∧ Truncated.dir !! f' = Some file' ∧
    failure f' (file_end file') = Some e ∧
    (∃ a b, e = a +:+ f' +:+ b) ∧
    (loadGTFSData Truncated.host (boot (Some Truncated.dir))).1 =
      Throw ("GTFS data loading failed: " +:+ e) ∧
    process (initializeServer Truncated.host (boot (Some Truncated.dir))) = Exited 1 ∧
    ((∀ f0 dk0, (f0, dk0) ∈ fileMapping → f0 ≠ "routes.txt" →
                clean (boot (Some Truncated.dir)) f0) → f' = "routes.txt").
Proof.
  apply (C9_failing_file_aborts_startup Truncated.host Truncated.dir
           "routes.txt" routes Truncated.routes_file).
  - apply (bool_decide_unpack _). vm_compute. exact I.
  - reflexivity.
  - vm_compute. discriminate.
Defined.

Example truncated_routes_message :
  (loadGTFSData Truncated.host (boot (Some Truncated.dir))).1 =
    Throw "GTFS data loading failed: Error parsing routes.txt: Unexpected end of input" ∧
  process (initializeServer Truncated.host (boot (Some Truncated.dir))) = Exited 1.
Proof. split; reflexivity. Qed.

(** ** Starting from nothing *)

(** With no data directory the program creates it, writes the five
    sample files, loads them and listens. *)
Example start_without_directory :
  let w := initializeServer Partial.host (boot None) in
  process w = Listening "3000" ∧
  JsMap.keys (st_routes (gtfsData w)) = ["1"] ∧
  JsMap.keys (st_stop_times (gtfsData w)) = ["1001_1"] ∧
  stop_id <$> stopsForRoute (gtfsData w) "1" = [Some "1001"] ∧
  field "stop_name" <$> listStops (gtfsData w) = [Some "Downtown Station"].
Proof. vm_compute. by split_and!. Qed.

(** When the calendar sample cannot be written, the other four samples
    are loaded, the calendar is warned about and the server listens. *)
Example start_without_calendar_sample :
  let h := mkHost "gtfs_data" None None
             (λ f, if decide (f = "calendar.txt") then Some "EACCES" else None)
             None in
  let w := initializeServer h (boot None) in
  process w = Listening "3000" ∧
  st_calendar (gtfsData w) = [] ∧
  JsMap.keys (st_trips (gtfsData w)) = ["1001"] ∧
  console w =
    [ Error "GTFS directory not found at: gtfs_data";
      Log "Creating GTFS directory...";
      Log "GTFS directory created successfully.";
      Log "GTFS directory is empty. Creating sample files...";
      Log "Created sample routes.txt";
      Log "Created sample stops.txt";
      Log "Created sample trips.txt";
      Log "Created sample stop_times.txt";
      Error "Failed to create calendar.txt: EACCES";
      Log "Successfully loaded routes.txt";
      Log "Successfully loaded stops.txt";
      Log "Successfully loaded trips.txt";
      Log "Successfully loaded stop_times.txt";
      Warn "Missing file: calendar.txt";
      Log "GTFS API server running on port 3000";
      Log "GTFS data loaded from: gtfs_data" ].
Proof. vm_compute. by split_and!. Qed.

(** * Further properties of the code *)

(** ** The collection of one file in closed form *)

Lemma derived_key_Some fileName row k :
  derived_key fileName row = Some k ↔ derives fileName k row.
Proof.
  unfold derived_key, derives.
  destruct (Js.truthy (getPrimaryKey fileName row)) eqn:Ht.
  - destruct (truthy_inv _ Ht) as (k' & Hk & Hne). rewrite Hk. split.
    + by intros [= <-].
    + by intros [-> _].
  - split; [done|]. intros [Hk Hne]. rewrite Hk in Ht.
    apply truthy_Some in Hne. congruence.
Qed.

Lemma derived_key_None fileName row :
  derived_key fileName row = None ↔ ∀ k, ¬ derives fileName k row.
Proof.
  split.
  - intros Hn k Hd%derived_key_Some. congruence.
  - intros Hno. destruct (derived_key fileName row) as [k|] eqn:Hk; [|done].
    by destruct (Hno k); apply derived_key_Some.
Qed.

Lemma on_data_derived_key fileName row m :
  on_data fileName row m =
  match derived_key fileName row with
  | Some k => JsMap.set k row m
  | None => m
  end.
Proof.
  destruct (derived_key fileName row) as [k|] eqn:Hk.
  - by apply on_data_derives, derived_key_Some.
  - by apply on_data_skips, derived_key_None.
Qed.

Lemma elem_of_first_occurrences l k : k ∈ first_occurrences l ↔ k ∈ l.
Proof.
  unfold first_occurrences.
  by rewrite elem_of_reverse, elem_of_remove_dups, elem_of_reverse.
Qed.

Lemma first_occurrences_snoc l k :
  first_occurrences (l ++ [k]) =
  if decide (k ∈ first_occurrences l) then first_occurrences l
  else (first_occurrences l ++ [k])%list.
Proof.
  unfold first_occurrences at 1. rewrite reverse_snoc. cbn [remove_dups].
  destruct (decide_rel elem_of k (reverse l)) as [Hin|Hnin].
  - rewrite decide_True; [done|].
    by apply elem_of_first_occurrences, elem_of_reverse.
  - rewrite decide_False, reverse_cons; [done|].
    by rewrite elem_of_first_occurrences, <-elem_of_reverse.
Qed.

Lemma keys_load_rows fileName rows :
  JsMap.keys (load_rows fileName rows JsMap.empty) =
  first_occurrences (omap (derived_key fileName) rows).
Proof.
  induction rows as [|row rows IH] using rev_ind; [done|].
  rewrite load_rows_snoc, on_data_derived_key, omap_app.
  assert (omap (derived_key fileName) [row] =
          match derived_key fileName row with Some k => [k] | None => [] end)
    as -> by (simpl; by destruct (derived_key fileName row)).
  destruct (derived_key fileName row) as [k|].
  - by rewrite keys_set, first_occurrences_snoc, IH.
  - by rewrite app_nil_r.
Qed.

Lemma omap_ext_elem_of {A B} (f g : A → option B) (l : list A) :
  (∀ x, x ∈ l → f x = g x) → omap f l = omap g l.
Proof.
  induction l as [|x l IH]; intros Hfg; [done|].
  cbn [omap list_omap]. rewrite (Hfg x) by (by left).
  rewrite IH; [done|]. intros y Hy. apply Hfg. by right.
Qed.

(** A map with distinct keys is its keys, each paired with what [get]
    finds under it. *)
Lemma JsMap_keys_get (m : JsMap.t) :
  NoDup (JsMap.keys m) →
  m = omap (λ k, pair k <$> JsMap.get k m) (JsMap.keys m).
Proof.
  unfold JsMap.keys. induction m as [|[k v] m IH]; [done|].
  rewrite fmap_cons. intros [Hk Hnd]%NoDup_cons. cbn [omap list_omap fst JsMap.get].
  rewrite decide_True by done. cbn [fmap option_fmap option_map]. f_equal.
  rewrite (IH Hnd) at 1. apply omap_ext_elem_of.
  intros k' Hk'. rewrite decide_False; [done|]. by intros ->.
Qed.

Lemma get_load_rows_from fileName rows m k :
  JsMap.get k (load_rows fileName rows m) =
  match last_deriving fileName k rows with
  | Some row => Some row
  | None => JsMap.get k m
  end.
Proof.
  induction rows as [|row rows IH] using rev_ind; [done|].
  rewrite load_rows_snoc, get_on_data, last_deriving_snoc.
  by case_decide.
Qed.

Lemma last_deriving_is_Some fileName k rows row :
  row ∈ rows → derives fileName k row → is_Some (last_deriving fileName k rows).
Proof.
  intros Hin Hd. unfold last_deriving. apply last_is_Some.
  intros Hnil. apply (filter_nil_not_elem_of _ _ row Hnil); done.
Qed.

Lemma get_Some_keys k v (m : JsMap.t) : JsMap.get k m = Some v → k ∈ JsMap.keys m.
Proof.
  intros H%get_Some_elem_of. by apply (list_elem_of_fmap_2' fst _ (k, v)).
Qed.

(** A row that derives a key is never dropped without trace: after the
    load its key is in the collection. *)
Lemma derived_key_in_keys fileName rows m row k :
  row ∈ rows → derives fileName k row →
  k ∈ JsMap.keys (load_rows fileName rows m).
Proof.
  intros Hin Hd.
  destruct (last_deriving_is_Some _ _ _ _ Hin Hd) as [r Hr].
  apply (get_Some_keys k r). by rewrite get_load_rows_from, Hr.
Qed.

Lemma keys_load_rows_known fileName rows m :
  (∀ row k, row ∈ rows → derives fileName k row → k ∈ JsMap.keys m) →
  JsMap.keys (load_rows fileName rows m) = JsMap.keys m.
Proof.
  revert m. induction rows as [|row rows IH]; intros m Hknown; [done|].
  rewrite load_rows_cons.
  assert (JsMap.keys (on_data fileName row m) = JsMap.keys m) as Hkeys.
  { rewrite on_data_derived_key.
    destruct (derived_key fileName row) as [k|] eqn:Hk; [|done].
    rewrite keys_set, decide_True; [done|].
    apply (Hknown row k); [by left|by apply derived_key_Some]. }
  rewrite IH; [done|]. rewrite Hkeys.
  intros r k Hr Hd. apply (Hknown r k); [by right|done].
Qed.

Lemma JsMap_ext (m m' : JsMap.t) :
  NoDup (JsMap.keys m) → JsMap.keys m = JsMap.keys m' →
  (∀ k, JsMap.get k m = JsMap.get k m') → m = m'.
Proof.
  intros Hnd Hkeys Hget.
  rewrite (JsMap_keys_get m Hnd), (JsMap_keys_get m') by (by rewrite <-Hkeys).
  rewrite Hkeys. apply omap_ext_elem_of. intros k _. by rewrite Hget.
Qed.

(** **** X1 — the collection of one file in closed form

    After the rows of one file are handled, starting from the empty
    collection, the keys are the derived keys in the order of their first
    occurrence, and each key holds the last row that derives it: the
    listing has one row per key, placed where the key first appeared and
    carrying its last writer. *)
Theorem load_rows_closed_form (fileName : string) (rows : list Row) :
  let m := load_rows fileName rows JsMap.empty in
  let keys := first_occurrences (omap (derived_key fileName) rows) in
  JsMap.keys m = keys ∧
  m = omap (λ k, pair k <$> last_deriving fileName k rows) keys ∧
  JsMap.values m = omap (λ k, last_deriving fileName k rows) keys.
Proof.
  intros m keys.
  assert (NoDup (JsMap.keys m)) as Hnd by apply NoDup_keys_load_rows, NoDup_nil_2.
  assert (m = omap (λ k, pair k <$> last_deriving fileName k rows) keys) as Hm.
  { rewrite (JsMap_keys_get m Hnd) at 1. unfold m at 2, keys.
    rewrite keys_load_rows. apply omap_ext_elem_of.
    intros k _. unfold m. by rewrite get_load_rows. }
  split_and!; [apply keys_load_rows|done|].
  unfold JsMap.values. rewrite Hm at 1. rewrite list_fmap_omap.
  apply omap_ext_elem_of. intros k _.
  by destruct (last_deriving fileName k rows).
Qed.

(** **** X2 — handling the same rows again changes nothing

    In a collection built by the loader, once a sequence of rows has been
    handled, handling the same sequence a second time leaves the
    collection as it is: same keys in the same order, same rows. *)
Theorem load_rows_replay (fileName : string) (before rows : list Row) :
  let m := load_rows fileName rows (load_rows fileName before JsMap.empty) in
  load_rows fileName rows m = m.
Proof.
  intros m.
  assert (NoDup (JsMap.keys m)) as Hnd
    by (do 2 apply NoDup_keys_load_rows; apply NoDup_nil_2).
  symmetry. apply JsMap_ext; [done| |].
  - symmetry. apply keys_load_rows_known.
    intros row k Hin Hd. by apply (derived_key_in_keys _ _ _ row).
  - intros k. rewrite get_load_rows_from.
    destruct (last_deriving fileName k rows) as [r|] eqn:Hr; [|done].
    unfold m. by rewrite get_load_rows_from, Hr.
Qed.

(** ** The store the loader leaves *)

Lemma load_files_NoDup_keys files w :
  (∀ dk, NoDup (JsMap.keys (collection dk (gtfsData w)))) →
  ∀ dk, NoDup (JsMap.keys (collection dk (gtfsData (load_files files w).2))).
Proof.
  revert w. induction files as [|[f dk0] files IH]; intros w Hw; [done|].
  assert (∀ file dk,
            NoDup (JsMap.keys (collection dk (gtfsData (store_rows f dk0 file w)))))
    as Hstep.
  { intros file dk. destruct (decide (dk0 = dk)) as [<-|Hne].
    - rewrite collection_store_rows_eq. by apply NoDup_keys_load_rows.
    - by rewrite collection_store_rows_ne. }
  rewrite load_files_cons. destruct (lookup_file f w) as [file|].
  - destruct (failure f (file_end file)).
    + apply Hstep.
    + apply IH. apply Hstep.
  - by apply IH.
Qed.

Lemma loadGTFSData_NoDup_keys h d dk :
  NoDup (JsMap.keys (collection dk (gtfsData (loadGTFSData h (boot d)).2))).
Proof.
  assert (∀ w, gtfsData w = gtfsData0 →
               ∀ dk, NoDup (JsMap.keys (collection dk (gtfsData w)))) as Hempty.
  { intros w -> dk'. destruct dk'; apply NoDup_nil_2. }
  unfold loadGTFSData.
  pose proof (gtfsData_checkGTFSDirectory h (boot d)) as Hc.
  destruct (checkGTFSDirectory h (boot d)) as [[|e] w1]; simpl in Hc.
  - destruct (unlistable w1); [by apply Hempty|].
    rewrite rethrow_snd. apply load_files_NoDup_keys, Hempty.
    by rewrite gtfsData_seed.
  - by apply Hempty.
Qed.

(** **** X3 — every stored row is found under its own key

    In the store the loader leaves, whatever the directory held, each
    collection has pairwise distinct, non-empty keys; each stored row sits
    under the key it derives, so looking that key up returns the row; and
    for routes, stops, trips and calendar the key is the row's key field,
    so a listing never shows two rows with the same identifier nor a row
    without one. *)
Theorem stored_rows_keyed
    (h : Host) (d : option Dir) (fileName : string) (dataKey : DataKey) :
  (fileName, dataKey) ∈ fileMapping →
  let m := collection dataKey (gtfsData (loadGTFSData h (boot d)).2) in
  NoDup (JsMap.keys m) ∧
  (∀ k row, (k, row) ∈ m →
     k ≠ "" ∧ derived_key fileName row = Some k ∧ JsMap.get k m = Some row) ∧
  (∀ name, key_field fileName = Some name →
     field name <$> JsMap.values m = Some <$> JsMap.keys m ∧
     NoDup (field name <$> JsMap.values m)).
Proof.
  intros Hf m.
  pose proof (loadGTFSData_NoDup_keys h d dataKey) as Hnd. fold m in Hnd.
  pose proof (loadGTFSData_loaded h d) as Hw.
  assert (∀ k row, (k, row) ∈ m → derives fileName k row) as Hder.
  { intros k row Hin. by destruct (Hw _ _ _ _ Hf Hin). }
  split_and!; [done| |].
  - intros k row Hin. pose proof (Hder k row Hin) as Hd.
    split_and!; [by destruct Hd|by apply derived_key_Some|by apply elem_of_get_Some].
  - intros name Hname.
    assert (field name <$> JsMap.values m = Some <$> JsMap.keys m) as Heq.
    { unfold JsMap.values, JsMap.keys. rewrite <-!list_fmap_compose.
      apply list_fmap_ext. intros i [k row] Hi%list_elem_of_lookup_2. simpl.
      destruct (Hder k row Hi) as [Hk _].
      by rewrite (getPrimaryKey_key_field _ _ _ Hname) in Hk. }
    split; [done|]. rewrite Heq. by apply (NoDup_fmap_2 Some).
Qed.

Lemma stored_rows_keyed_witness :
  let s := gtfsData (loadGTFSData Loop.host (boot (Some Loop.dir))).2 in
  route_id <$> listRoutes s = [Some "R1"] ∧
  stop_id <$> listStops s = [Some "S1"; Some "S2"] ∧
  NoDup (stop_id <$> listStops s).
Proof.
  intros s.
  destruct (stored_rows_keyed Loop.host (Some Loop.dir) "stops.txt" stops)
    as (_ & _ & Hfield).
  - apply (bool_decide_unpack _). vm_compute. exact I.
  - destruct (Hfield "stop_id" eq_refl) as [_ Hnd].
    split_and!; [reflexivity|reflexivity|exact Hnd].
Defined.

(** ** The join, as a set *)

(** **** X4 — which stops a route is answered with

    In the store the loader leaves, a row is among the stops answered for
    a route exactly when it is the stop that the [stop_id] of some stop
    time resolves to, the stop time being of a trip (same [trip_id]) whose
    [route_id] is the route asked for.  Routes are not consulted. *)
Theorem stopsForRoute_membership
    (h : Host) (d : option Dir) (routeId : string) (r : Row) :
  let s := gtfsData (loadGTFSData h (boot d)).2 in
  r ∈ stopsForRoute s routeId ↔
  ∃ trip stopTime,
    trip ∈ JsMap.values (st_trips s) ∧ route_id trip = Some routeId ∧
    stopTime ∈ JsMap.values (st_stop_times s) ∧
    trip_id stopTime = trip_id trip ∧
    JsMap.get_value (stop_id stopTime) (st_stops s) = Some r.
Proof.
  intros s. split; [apply stopsForRoute_sound|].
  intros (trip & st & Ht & Hroute & Hst & Htrip & Hget).
  destruct (stopsForRoute_complete s routeId trip st r) as (y & Hy & Href);
    [done..|].
  assert (y = r) as <-; [|done].
  pose proof (loadGTFSData_loaded h d) as Hw. fold s in Hw.
  assert (("stops.txt", stops) ∈ fileMapping) as Hf by (by apply elem_of_fileMapping).
  apply (loaded_ref_inj _ _ _ _ _ Hw Hf); [| |done].
  - apply stopsForRoute_sound in Hy as (_ & st' & _ & _ & _ & _ & Hy).
    destruct (stop_id st'); [|done]. by apply get_Some_values in Hy.
  - destruct (stop_id st); [|done]. by apply get_Some_values in Hget.
Qed.

(** **** X5 — the answer is part of the stop listing

    In every store, the stops answered for a route are rows of the stop
    collection, no row twice, so they are at most as many as the stops
    listed; and the answer does not depend on the route or calendar
    collections. *)
Theorem stopsForRoute_within_stops (s : Store) (routeId : string) :
  NoDup (stopsForRoute s routeId) ∧
  stopsForRoute s routeId ⊆ listStops s ∧
  (length (stopsForRoute s routeId) ≤ length (listStops s))%nat ∧
  ∀ m m', stopsForRoute (with_collection routes m (with_collection calendar m' s))
            routeId = stopsForRoute s routeId.
Proof.
  assert (NoDup (stopsForRoute s routeId)) as Hnd.
  { apply (NoDup_fmap_1 row_ref), NoDup_refs_stopsForRoute. }
  assert (∀ x, x ∈ stopsForRoute s routeId → x ∈ listStops s) as Hsub.
  { intros x (_ & st & _ & _ & _ & _ & Hx)%stopsForRoute_sound.
    destruct (stop_id st); [|done]. by apply get_Some_values in Hx. }
  split_and!; [done|done| |done].
  by apply submseteq_length, NoDup_submseteq.
Qed.

(** ** Writing the sample files *)

Lemma createSampleGTFSFiles_fold h w :
  createSampleGTFSFiles h w = foldl (write_sample h) w sampleData.
Proof. reflexivity. Qed.

Lemma lookup_write_sample h w name text n :
  lookup_file n (write_sample h w (name, text)) =
  if decide (n = name) then
    match lookup_file name w with
    | Some f => Some f
    | None =>
        match write_fails h name with
        | Some _ => None
        | None => Some (csv text)
        end
    end
  else lookup_file n w.
Proof.
  unfold write_sample.
  destruct (lookup_file name w) as [f|] eqn:Hlook.
  { case_decide; by subst. }
  destruct (write_fails h name) as [m|].
  { case_decide; by subst. }
  unfold lookup_file in *. cbn [say set_fs fs mbind option_bind].
  case_decide as Hn.
  - subst. apply lookup_insert_eq.
  - rewrite lookup_insert_ne by done. destruct (fs w); [done|].
    apply lookup_empty.
Qed.

Section write_samples.

Variable h : Host.

Implicit Types (w : World) (l : list (string * string)).

Lemma write_samples_keeps l w n f :
  lookup_file n w = Some f → lookup_file n (foldl (write_sample h) w l) = Some f.
Proof.
  revert w. induction l as [|[name text] l IH]; intros w Hn; [done|].
  cbn [foldl]. apply IH. rewrite lookup_write_sample.
  case_decide; [subst; by rewrite Hn|done].
Qed.

Lemma write_samples_other l w n :
  n ∉ l.*1 → lookup_file n (foldl (write_sample h) w l) = lookup_file n w.
Proof.
  revert w. induction l as [|[name text] l IH]; intros w Hn; [done|].
  rewrite fmap_cons in Hn. apply not_elem_of_cons in Hn as [Hne Hn].
  cbn [foldl]. rewrite IH by done. rewrite lookup_write_sample.
  by rewrite decide_False.
Qed.

Lemma write_samples_new l w n text :
  NoDup l.*1 → (n, text) ∈ l → lookup_file n w = None →
  lookup_file n (foldl (write_sample h) w l) =
  match write_fails h n with
  | Some _ => None
  | None => Some (csv text)
  end.
Proof.
  revert w. induction l as [|[name text'] l IH]; intros w Hnd Hin Hn;
    [by apply elem_of_nil in Hin|].
  rewrite fmap_cons in Hnd. apply NoDup_cons in Hnd as [Hfresh Hnd].
  cbn [foldl]. apply elem_of_cons in Hin as [[= <- <-]|Hin].
  - rewrite write_samples_other by done.
    by rewrite lookup_write_sample, decide_True, Hn.
  - apply IH; [done|done|].
    rewrite lookup_write_sample, decide_False; [done|].
    intros ->. apply Hfresh. by apply (list_elem_of_fmap_2' fst _ (name, text)).
Qed.

Lemma write_samples_origin l w n f :
  lookup_file n (foldl (write_sample h) w l) = Some f →
  lookup_file n w = Some f ∨ ∃ text, (n, text) ∈ l ∧ f = csv text.
Proof.
  revert w. induction l as [|[name text] l IH]; intros w; [by left|].
  cbn [foldl]. intros [Hw|(text' & Hin & ->)]%IH.
  - rewrite lookup_write_sample in Hw. case_decide as Hn; [subst|by left].
    destruct (lookup_file name w); [by left|].
    destruct (write_fails h name); [done|]. injection Hw as <-.
    right. exists text. split; [by left|done].
  - right. exists text'. split; [by right|done].
Qed.

End write_samples.

Lemma NoDup_sampleData_names : NoDup sampleData.*1.
Proof. by apply (bool_decide_unpack _). Qed.

Lemma file_end_csv text : file_end (csv text) = End.
Proof. unfold csv. by destruct (split_on _ text). Qed.

(** **** X6 — sample files are written only where nothing exists

    [createSampleGTFSFiles] leaves the store alone and never replaces a
    file that exists; it touches no name other than those of the five
    samples; and a sample whose file does not exist is written with the
    sample text, unless the write fails, in which case the file stays
    missing. *)
Theorem createSampleGTFSFiles_writes_missing_only
    (h : Host) (w : World) (name : string) :
  let w' := createSampleGTFSFiles h w in
  gtfsData w' = gtfsData w ∧
  (∀ f, lookup_file name w = Some f → lookup_file name w' = Some f) ∧
  (name ∉ sampleData.*1 → lookup_file name w' = lookup_file name w) ∧
  (∀ text, (name, text) ∈ sampleData → lookup_file name w = None →
     lookup_file name w' =
     match write_fails h name with
     | Some _ => None
     | None => Some (csv text)
     end).
Proof.
  intros w'. unfold w'. rewrite createSampleGTFSFiles_fold.
  split_and!.
  - rewrite <-createSampleGTFSFiles_fold. apply gtfsData_createSampleGTFSFiles.
  - intros f. apply write_samples_keeps.
  - apply write_samples_other.
  - intros text. apply write_samples_new, NoDup_sampleData_names.
Qed.

Lemma createSampleGTFSFiles_writes_missing_only_witness :
  let w' := createSampleGTFSFiles Partial.host (boot (Some own_calendar)) in
  lookup_file "calendar.txt" w' = own_calendar !! "calendar.txt" ∧
  lookup_file "routes.txt" w' =
    Some (csv ("route_id,route_short_name,route_long_name,route_type" +:+ nl +:+
               "1,101,Downtown Express,3")) ∧
  lookup_file "notes.txt" w' = None.
Proof.
  intros w'. split_and!.
  - destruct (createSampleGTFSFiles_writes_missing_only Partial.host
                (boot (Some own_calendar)) "calendar.txt") as (_ & Hkeep & _).
    apply Hkeep. reflexivity.
  - destruct (createSampleGTFSFiles_writes_missing_only Partial.host
                (boot (Some own_calendar)) "routes.txt") as (_ & _ & _ & Hnew).
    unfold w'.
    rewrite (Hnew ("route_id,route_short_name,route_long_name,route_type" +:+ nl +:+
                   "1,101,Downtown Express,3")); [reflexivity| |reflexivity].
    apply (bool_decide_unpack _). vm_compute. exact I.
  - destruct (createSampleGTFSFiles_writes_missing_only Partial.host
                (boot (Some own_calendar)) "notes.txt") as (_ & _ & Hother & _).
    unfold w'. rewrite Hother; [reflexivity|].
    apply (bool_decide_unpack _). vm_compute. exact I.
Defined.

(** ** What makes the load succeed or fail *)

Lemma fs_load_files files w : fs (load_files files w).2 = fs w.
Proof.
  revert w. induction files as [|[f dk] files IH]; intros w; [done|].
  rewrite load_files_cons. destruct (lookup_file f w) as [file|].
  - destruct (failure f (file_end file)); [done|]. by rewrite IH.
  - by rewrite IH.
Qed.

Lemma load_files_Throw_inv files w e :
  (load_files files w).1 = Throw e →
  ∃ f dk file,
    (f, dk) ∈ files ∧ lookup_file f w = Some file ∧
    failure f (file_end file) = Some e.
Proof.
  revert w. induction files as [|[f0 dk0] files IH]; intros w; [done|].
  rewrite load_files_cons.
  destruct (lookup_file f0 w) as [file0|] eqn:Hlook.
  - destruct (failure f0 (file_end file0)) as [e0|] eqn:Hfail.
    + intros [= <-]. exists f0, dk0, file0. split_and!; [by left|done|done].
    + intros (f & dk & file & Hin & Hl & He)%IH.
      exists f, dk, file. split_and!; [by right|done|done].
  - intros (f & dk & file & Hin & Hl & He)%IH.
    exists f, dk, file. split_and!; [by right|done|done].
Qed.

Lemma load_files_Ok_iff files w :
  (load_files files w).1 = Ok ↔ ∀ f dk, (f, dk) ∈ files → clean w f.
Proof.
  split; [|apply load_files_clean].
  intros Hok f dk Hin file Hfile.
  destruct (file_end file) eqn:Hend; [done|..];
    destruct (load_files_fails files w f dk file) as (? & ? & ? & e & _ & _ & _ & He);
    try done; rewrite ?Hend; try done; congruence.
Qed.

Lemma load_files_app pre rest w :
  (load_files pre w).1 = Ok →
  load_files (pre ++ rest) w = load_files rest (load_files pre w).2.
Proof.
  revert w. induction pre as [|[f dk] pre IH]; intros w; [done|].
  simpl app. rewrite !load_files_cons.
  destruct (lookup_file f w) as [file|]; [|apply IH].
  destruct (failure f (file_end file)); [done|apply IH].
Qed.

Lemma required_sample name : required name ↔ name ∈ sampleData.*1.
Proof. done. Qed.

(** After the sample files were written, a required file that does not
    end well was in the directory before. *)
Lemma seed_clean h w d :
  fs w = Some d →
  (∀ f file, required f → d !! f = Some file → file_end file = End) →
  ∀ f, required f → clean (seed h w) f.
Proof.
  intros Hd Hclean f Hf file. unfold seed. case_decide.
  - rewrite createSampleGTFSFiles_fold.
    intros [Hold|(text & _ & ->)]%write_samples_origin.
    + apply (Hclean f); [done|]. unfold lookup_file in Hold.
      cbn [say fs] in Hold. by rewrite Hd in Hold.
    + apply file_end_csv.
  - unfold lookup_file. rewrite Hd. by apply Hclean.
Qed.

Lemma required_fileMapping f dk : (f, dk) ∈ fileMapping → required f.
Proof. intros Hin. by apply (list_elem_of_fmap_2' fst _ (f, dk)). Qed.

Lemma checkGTFSDirectory_missing h u :
  checkGTFSDirectory h (start None u) =
  match mkdir_fails h with
  | Some m =>
      (Throw ("Failed to create GTFS directory: " +:+ m),
       say (Log "Creating GTFS directory...")
         (say (Error ("GTFS directory not found at: " +:+ gtfsPath h))
            (start None u)))
  | None =>
      (Ok,
       say (Log "GTFS directory created successfully.")
         (make_dir
            (say (Log "Creating GTFS directory...")
               (say (Error ("GTFS directory not found at: " +:+ gtfsPath h))
                  (start None u)))))
  end.
Proof. unfold checkGTFSDirectory. simpl. by destruct (mkdir_fails h). Qed.

(** On a directory that exists and can be listed, the load goes well
    exactly when no required file in it fails. *)
Lemma loadGTFSData_Ok_iff_listable h d :
  (loadGTFSData h (boot (Some d))).1 = Ok ↔
  ∀ f dk file, (f, dk) ∈ fileMapping → d !! f = Some file →
               file_end file = End.
Proof.
  rewrite (loadGTFSData_at_loop h _ (boot (Some d)))
    by (by apply (checkGTFSDirectory_exists h d)).
  rewrite rethrow_fst.
  assert ((load_files fileMapping (seed h (boot (Some d)))).1 = Ok ↔
          ∀ f dk file, (f, dk) ∈ fileMapping → d !! f = Some file →
                       file_end file = End) as Hiff.
  { rewrite load_files_Ok_iff. split.
    - intros Hclean f dk file Hin Hfile. apply (Hclean f dk Hin).
      rewrite (seed_populated h d); [done|done|].
      intros Hz%map_size_empty_iff. by rewrite Hz in Hfile.
    - intros Hclean f dk Hin.
      apply (seed_clean h _ d); [done| |by apply (required_fileMapping f dk)].
      intros f' file' [[f'' dk'] [-> Hin']]%list_elem_of_fmap_1.
      by apply (Hclean f'' dk'). }
  destruct (load_files fileMapping _).1 eqn:Hres; [done|].
  split; [done|]. intros Hclean.
  assert (Throw message = Ok) as Habs; [|done]. by apply Hiff.
Qed.

(** On a path that is missing, the load goes well exactly when the
    directory can be created. *)
Lemma loadGTFSData_Ok_iff_missing h u :
  (loadGTFSData h (start None u)).1 = Ok ↔ mkdir_fails h = None.
Proof.
  unfold loadGTFSData. rewrite checkGTFSDirectory_missing.
  destruct (mkdir_fails h) as [m|]; [done|].
  cbn [unlistable say make_dir]. rewrite rethrow_fst.
  rewrite (proj2 (load_files_Ok_iff _ _)); [done|].
  intros f dk Hin.
  apply (seed_clean h _ ∅); [done| |by apply (required_fileMapping f dk)].
  intros f' file' _ Hfile. by rewrite lookup_empty in Hfile.
Qed.

Lemma loadGTFSData_unlistable h d m :
  loadGTFSData h (start (Some d) (Some m)) =
  (Throw ("GTFS data loading failed: " +:+ m), start (Some d) (Some m)).
Proof. reflexivity. Qed.

(** The load goes well exactly when the directory exists and can be
    listed, or is missing and can be created, and no required file in it
    fails. *)
Lemma loadGTFSData_Ok_iff h d0 u :
  (loadGTFSData h (start d0 u)).1 = Ok ↔
  (d0 = None → mkdir_fails h = None) ∧
  (is_Some d0 → u = None) ∧
  (∀ d f dk file,
     d0 = Some d → (f, dk) ∈ fileMapping → d !! f = Some file →
     file_end file = End).
Proof.
  destruct d0 as [d|].
  - destruct u as [m|].
    + rewrite loadGTFSData_unlistable. split; [done|].
      intros (_ & Hu & _). by discriminate Hu.
    + change (start (Some d) None) with (boot (Some d)).
      rewrite loadGTFSData_Ok_iff_listable. split.
      * intros Hclean. split_and!; [done|done|].
        intros d' f dk file [= <-]. apply Hclean.
      * intros (_ & _ & Hclean) f dk file. by apply Hclean.
  - rewrite loadGTFSData_Ok_iff_missing. split.
    + intros Hm. split_and!; [done| |done]. by intros [? ?].
    + intros (Hm & _). by apply Hm.
Qed.

(** **** X7 — when the server starts

    Started on any state of the data directory (missing, a directory
    that can be listed, or a path that cannot be listed),
    [initializeServer] ends either listening on the configured port or
    exited with status 1.  The load goes well exactly when the directory
    can be listed, or is missing and can be created, and no required file
    present in it fails while read or parsed; failed writes of sample
    files and missing files never make it fail.  The server listens
    exactly when the load went well and [app.listen] does not throw; in
    every other case the process has exited with status 1. *)
Theorem initializeServer_listens_iff
    (h : Host) (d0 : option Dir) (u : option string) :
  let fine :=
    (d0 = None → mkdir_fails h = None) ∧
    (is_Some d0 → u = None) ∧
    (∀ d f dk file,
       d0 = Some d → (f, dk) ∈ fileMapping → d !! f = Some file →
       file_end file = End) in
  let w := initializeServer h (start d0 u) in
  ((loadGTFSData h (start d0 u)).1 = Ok ↔ fine) ∧
  (process w = Listening (port h) ↔ fine ∧ listen_fails h = None) ∧
  (process w = Exited 1 ↔ ¬ (fine ∧ listen_fails h = None)) ∧
  gtfsData w = gtfsData (loadGTFSData h (start d0 u)).2.
Proof.
  intros fine w. pose proof (loadGTFSData_Ok_iff h d0 u) as Hiff.
  fold fine in Hiff. unfold w, initializeServer.
  destruct (loadGTFSData h (start d0 u)) as [[|e] w1]; simpl in *.
  - assert (fine) as Hfine by (by apply Hiff).
    destruct (listen_fails h) as [m|].
    + split_and!; [done| | |done].
      * split; [done|]. by intros [_ ?].
      * split; [|done]. by intros _ [_ ?].
    + split_and!; [done| | |done].
      * split; [done|]. done.
      * split; [done|]. intros Hno. by destruct Hno.
  - assert (¬ fine) as Hno by (intros Hf; by apply Hiff in Hf).
    split_and!; [done| | |done].
    + split; [done|]. by intros [? _].
    + split; [|done]. by intros _ [? _].
Qed.

(** A port out of range: the load goes well and [app.listen] throws. *)
Example start_on_bad_port :
  let h := mkHost "gtfs_data" (Some "70000") None (λ _, None)
             (Some "options.port should be >= 0 and < 65536") in
  let w := initializeServer h (boot (Some Partial.dir)) in
  (loadGTFSData h (boot (Some Partial.dir))).1 = Ok ∧
  process w = Exited 1 ∧
  last (console w) = Some (Log "4. Check if all required GTFS files are present") ∧
  JsMap.keys (st_routes (gtfsData w)) = ["R1"].
Proof. vm_compute. by split_and!. Qed.

(** **** X8 — what the load can throw

    Every error [loadGTFSData] throws carries the prefix "GTFS data
    loading failed: " and is one of three kinds: the directory was
    missing and could not be created; the path exists and could not be
    listed, the message being that of [readdirSync]; or the directory
    could be listed and a required file that was present in it failed
    while read or parsed, the message naming the file. *)
Theorem loadGTFSData_errors
    (h : Host) (d0 : option Dir) (u : option string) (e : string) :
  (loadGTFSData h (start d0 u)).1 = Throw e →
  (d0 = None ∧
   ∃ m, mkdir_fails h = Some m ∧
        e = "GTFS data loading failed: Failed to create GTFS directory: " +:+ m) ∨
  (∃ d m, d0 = Some d ∧ u = Some m ∧ e = "GTFS data loading failed: " +:+ m) ∨
  (∃ d f dk file e',
     d0 = Some d ∧ u = None ∧ (f, dk) ∈ fileMapping ∧ d !! f = Some file ∧
     failure f (file_end file) = Some e' ∧
     e = "GTFS data loading failed: " +:+ e').
Proof.
  destruct d0 as [d|]; [destruct u as [m|]|].
  - rewrite loadGTFSData_unlistable. intros [= <-].
    right. left. by exists d, m.
  - change (start (Some d) None) with (boot (Some d)).
    rewrite (loadGTFSData_at_loop h _ (boot (Some d)))
      by (by apply (checkGTFSDirectory_exists h d)).
    rewrite rethrow_fst.
    destruct (load_files fileMapping _).1 as [|e'] eqn:Hres; [done|].
    intros [= <-]. right. right.
    apply load_files_Throw_inv in Hres as (f & dk & file & Hin & Hfile & He).
    assert (d !! f = Some file) as Hd.
    { destruct (d !! f) as [file0|] eqn:Hdf.
      - rewrite (seed_populated h d) in Hfile; [by rewrite <-Hfile|done|].
        intros Hz%map_size_empty_iff. by rewrite Hz in Hdf.
      - unfold seed in Hfile. case_decide as Hsize.
        + rewrite createSampleGTFSFiles_fold in Hfile.
          apply write_samples_origin in Hfile as [Hold|(text & _ & ->)].
          * unfold lookup_file in Hold. simpl in Hold. congruence.
          * by rewrite file_end_csv in He.
        + unfold lookup_file in Hfile. simpl in Hfile. congruence. }
    by exists d, f, dk, file, e'.
  - intros Hthrow. left. split; [done|].
    unfold loadGTFSData in Hthrow. rewrite checkGTFSDirectory_missing in Hthrow.
    destruct (mkdir_fails h) as [m|] eqn:Hm.
    + injection Hthrow as <-. by exists m.
    + pose proof (proj2 (loadGTFSData_Ok_iff_missing h u) Hm) as Hok.
      unfold loadGTFSData in Hok. rewrite checkGTFSDirectory_missing, Hm in Hok.
      congruence.
Qed.

Lemma loadGTFSData_errors_witness :
  let m := "ENOTDIR: not a directory, scandir 'gtfs_data'" in
  let e := "GTFS data loading failed: " +:+ m in
  (Some (∅ : Dir) = None ∧
   ∃ m', mkdir_fails Partial.host = Some m' ∧
         e = "GTFS data loading failed: Failed to create GTFS directory: " +:+ m') ∨
  (∃ d m', Some (∅ : Dir) = Some d ∧ Some m = Some m' ∧
           e = "GTFS data loading failed: " +:+ m') ∨
  (∃ d f dk file e',
     Some (∅ : Dir) = Some d ∧ Some m = None ∧ (f, dk) ∈ fileMapping ∧
     d !! f = Some file ∧ failure f (file_end file) = Some e' ∧
     e = "GTFS data loading failed: " +:+ e').
Proof.
  intros m e.
  apply (loadGTFSData_errors Partial.host (Some ∅) (Some m) e). reflexivity.
Defined.

(** The data path is a regular file: the load throws what [readdirSync]
    throws, and the process exits. *)
Example start_on_unlistable_path :
  let w := initializeServer Partial.host
             (start (Some ∅) (Some "ENOTDIR: not a directory, scandir 'gtfs_data'")) in
  process w = Exited 1 ∧
  console w !! 0 =
    Some (Error "Server initialization failed: GTFS data loading failed: ENOTDIR: not a directory, scandir 'gtfs_data'") ∧
  gtfsData w = gtfsData0.
Proof. vm_compute. by split_and!. Qed.

(** ** The store after the load *)

Lemma fs_loadGTFSData_at_loop h d0 w1 :
  checkGTFSDirectory h (boot d0) = (Ok, w1) →
  fs (loadGTFSData h (boot d0)).2 = fs (seed h w1).
Proof.
  intros Hc. by rewrite (loadGTFSData_at_loop h d0 w1 Hc), rethrow_snd, fs_load_files.
Qed.

Lemma lookup_file_fs n w w' : fs w = fs w' → lookup_file n w = lookup_file n w'.
Proof. unfold lookup_file. by intros ->. Qed.

Lemma loadGTFSData_Ok_inv h w :
  (loadGTFSData h w).1 = Ok →
  ∃ w1, checkGTFSDirectory h w = (Ok, w1) ∧
        (load_files fileMapping (seed h w1)).1 = Ok.
Proof.
  unfold loadGTFSData. destruct (checkGTFSDirectory h w) as [[|e] w1]; [|done].
  destruct (unlistable w1); [done|].
  rewrite rethrow_fst. intros Hok. exists w1. split; [done|].
  by destruct (load_files fileMapping (seed h w1)).1.
Qed.

(** **** X9 — after a load that went well, the store mirrors the directory

    When [loadGTFSData] returns normally, each of the five collections
    holds exactly the rows of its own file as the directory now has it,
    handled in order from the empty collection, and is empty when the
    file is missing: no collection depends on another file or on the
    order in which the files were read. *)
Theorem loadGTFSData_store
    (h : Host) (d0 : option Dir) (fileName : string) (dataKey : DataKey) :
  (loadGTFSData h (boot d0)).1 = Ok →
  (fileName, dataKey) ∈ fileMapping →
  let w := (loadGTFSData h (boot d0)).2 in
  collection dataKey (gtfsData w) =
  match lookup_file fileName w with
  | Some file => load_rows fileName (read_rows fileName file) JsMap.empty
  | None => JsMap.empty
  end.
Proof.
  intros (w1 & Hcheck & Hok)%loadGTFSData_Ok_inv Hf w.
  assert (gtfsData (seed h w1) = gtfsData0) as Hstore.
  { rewrite gtfsData_seed.
    pose proof (gtfsData_checkGTFSDirectory h (boot d0)) as Hc.
    by rewrite Hcheck in Hc. }
  rewrite (lookup_file_fs fileName w (seed h w1))
    by apply (fs_loadGTFSData_at_loop _ _ _ Hcheck).
  unfold w. rewrite (loadGTFSData_at_loop h _ w1 Hcheck), rethrow_snd.
  destruct (lookup_file fileName (seed h w1)) as [file|] eqn:Hfile.
  - rewrite (load_files_loads fileMapping _ fileName dataKey file);
      [by rewrite Hstore; destruct dataKey| |apply NoDup_fileMapping_keys|done|done].
    by apply load_files_Ok_iff.
  - rewrite load_files_untouched; [by rewrite Hstore; destruct dataKey|].
    intros f' Hf'. by rewrite (fileMapping_file_of_key _ _ _ Hf' Hf).
Qed.

Lemma loadGTFSData_store_witness :
  let w := (loadGTFSData Partial.host (boot (Some Partial.dir))).2 in
  collection routes (gtfsData w) =
  match lookup_file "routes.txt" w with
  | Some file => load_rows "routes.txt" (read_rows "routes.txt" file) JsMap.empty
  | None => JsMap.empty
  end.
Proof.
  apply (loadGTFSData_store Partial.host (Some Partial.dir) "routes.txt" routes).
  - reflexivity.
  - apply (bool_decide_unpack _). vm_compute. exact I.
Defined.

(** **** X10 — what a failed load leaves behind

    When the first required file to fail is [fileName], the files before
    it in the fixed order being missing or well-formed, the load throws
    the error of that file; the collections of the files before it are
    fully loaded; the rows of [fileName] delivered before the error are
    in its collection; and the files after it are never read, their
    collections staying empty. *)
Theorem loadGTFSData_partial
    (h : Host) (d : Dir) (pre post : list (string * DataKey))
    (fileName : string) (dataKey : DataKey) (file : File) (e : string) :
  fileMapping = (pre ++ (fileName, dataKey) :: post)%list →
  (∀ f dk, (f, dk) ∈ pre → clean (boot (Some d)) f) →
  d !! fileName = Some file →
  failure fileName (file_end file) = Some e →
  let r := loadGTFSData h (boot (Some d)) in
  r.1 = Throw ("GTFS data loading failed: " +:+ e) ∧
  collection dataKey (gtfsData r.2) =
    load_rows fileName (read_rows fileName file) JsMap.empty ∧
  (∀ f dk file', (f, dk) ∈ pre → d !! f = Some file' →
     collection dk (gtfsData r.2) = load_rows f (read_rows f file') JsMap.empty) ∧
  (∀ f dk, (f, dk) ∈ post → collection dk (gtfsData r.2) = JsMap.empty).
Proof.
  intros Hsplit Hclean Hfile Hfail r.
  assert (size d ≠ 0) as Hsize.
  { intros Hz%map_size_empty_iff. by rewrite Hz in Hfile. }
  pose proof NoDup_fileMapping_keys as Hnd. rewrite Hsplit in Hnd.
  rewrite fmap_app, fmap_cons in Hnd.
  apply NoDup_app in Hnd as (Hnd_pre & Hdisj & Hnd_post).
  apply NoDup_cons in Hnd_post as [Hfresh _]. cbn [snd] in *.
  assert ((load_files pre (boot (Some d))).1 = Ok) as Hpre
    by (by apply load_files_clean).
  set (w0 := (load_files pre (boot (Some d))).2).
  assert (lookup_file fileName w0 = Some file) as Hlook.
  { unfold lookup_file, w0. by rewrite fs_load_files. }
  assert (collection dataKey (gtfsData w0) = JsMap.empty) as Hdk.
  { unfold w0. rewrite load_files_untouched; [by destruct dataKey|].
    intros f Hf. destruct (Hdisj dataKey); [|by left].
    by apply (list_elem_of_fmap_2' snd _ (f, dataKey)). }
  assert (r = (Throw ("GTFS data loading failed: " +:+ e),
               say (Error ("Failed to load " +:+ fileName +:+ ": " +:+ e))
                 (store_rows fileName dataKey file w0))) as ->.
  { unfold r. rewrite (loadGTFSData_populated h d Hsize), Hsplit.
    rewrite (load_files_app pre _ _ Hpre). fold w0.
    by rewrite load_files_cons, Hlook, Hfail. }
  cbn [fst snd say gtfsData]. split_and!.
  - done.
  - by rewrite collection_store_rows_eq, Hdk.
  - intros f dk file' Hin Hfile'.
    rewrite collection_store_rows_ne.
    + unfold w0. rewrite (load_files_loads pre _ f dk file'); [by destruct dk|done..].
    + intros ->. destruct (Hdisj dk); [|by left].
      by apply (list_elem_of_fmap_2' snd _ (f, dk)).
  - intros f dk Hin.
    assert (dk ∉ pre.*2) as Hnot_pre.
    { intros Hp. destruct (Hdisj dk Hp). right.
      by apply (list_elem_of_fmap_2' snd _ (f, dk)). }
    rewrite collection_store_rows_ne.
    + unfold w0. rewrite load_files_untouched; [by destruct dk|].
      intros f' Hf'. destruct Hnot_pre.
      by apply (list_elem_of_fmap_2' snd _ (f', dk)).
    + intros ->. apply Hfresh. by apply (list_elem_of_fmap_2' snd _ (f, dk)).
Qed.

Lemma loadGTFSData_partial_witness :
  let r := loadGTFSData Truncated.host (boot (Some Truncated.dir)) in
  r.1 = Throw "GTFS data loading failed: Error parsing routes.txt: Unexpected end of input" ∧
  JsMap.keys (st_routes (gtfsData r.2)) = ["R1"] ∧
  st_stops (gtfsData r.2) = [].
Proof.
  destruct (loadGTFSData_partial Truncated.host Truncated.dir []
              [("stops.txt", stops); ("trips.txt", trips);
               ("stop_times.txt", stop_times); ("calendar.txt", calendar)]
              "routes.txt" routes Truncated.routes_file
              "Error parsing routes.txt: Unexpected end of input")
    as (Hthrow & Hroutes & _ & Hpost).
  - reflexivity.
  - intros f dk Hin. by apply elem_of_nil in Hin.
  - reflexivity.
  - reflexivity.
  - split_and!; [exact Hthrow| |].
    + cbn [collection] in Hroutes. by rewrite Hroutes.
    + apply (Hpost "stops.txt" stops). by left.
Defined.

(** ** The directory after start-up *)

Lemma fs_initializeServer h w : fs (initializeServer h w) = fs (loadGTFSData h w).2.
Proof.
  unfold initializeServer. destruct (loadGTFSData h w) as [[|e] w1]; [|done].
  by destruct (listen_fails h).
Qed.

(** **** X11 — start-up never alters a file that exists

    Started on an existing directory, [initializeServer] leaves every
    file of the directory as it was, whether or not the load goes well;
    a directory that holds any entry is left exactly as it was, and only
    the five sample names can appear in one that was empty. *)
Theorem initializeServer_keeps_files (h : Host) (d : Dir) (name : string) :
  let w := initializeServer h (boot (Some d)) in
  (∀ file, d !! name = Some file → lookup_file name w = Some file) ∧
  (size d ≠ 0 → fs w = Some d) ∧
  (name ∉ sampleData.*1 → lookup_file name w = d !! name).
Proof.
  intros w.
  assert (fs w = fs (seed h (boot (Some d)))) as Hfs.
  { unfold w. rewrite fs_initializeServer.
    apply fs_loadGTFSData_at_loop. by apply (checkGTFSDirectory_exists h d). }
  rewrite (lookup_file_fs name w _ Hfs), Hfs.
  split_and!.
  - intros file Hfile. unfold seed. case_decide; [|done].
    rewrite createSampleGTFSFiles_fold. by apply write_samples_keeps.
  - intros Hsize. by rewrite (seed_populated h d).
  - intros Hname. unfold seed. case_decide; [|done].
    rewrite createSampleGTFSFiles_fold. by rewrite write_samples_other.
Qed.

Lemma initializeServer_keeps_files_witness :
  lookup_file "routes.txt" (initializeServer Truncated.host (boot (Some Truncated.dir)))
    = Some Truncated.routes_file ∧
  fs (initializeServer Truncated.host (boot (Some Truncated.dir))) = Some Truncated.dir.
Proof.
  destruct (initializeServer_keeps_files Truncated.host Truncated.dir "routes.txt")
    as (Hkeep & Hsame & _).
  split; [by apply Hkeep|]. apply Hsame. vm_compute. discriminate.
Defined.

(** ** Stop times without a trip *)

Lemma stopsForRoute_ext_routeTrips s s' routeId :
  st_trips s = st_trips s' →
  (∀ trip, trip ∈ routeTrips s routeId →
           tripStops s trip = tripStops s' trip) →
  stopsForRoute s routeId = stopsForRoute s' routeId.
Proof.
  intros Ht Hstep. unfold stopsForRoute.
  assert (routeTrips s' routeId = routeTrips s routeId) as ->
    by (unfold routeTrips; by rewrite Ht).
  generalize JsSet.empty.
  induction (routeTrips s routeId) as [|trip l IH]; intros acc; [done|].
  cbn [foldl]. rewrite <-(Hstep trip) by (by left).
  apply IH. intros t Hin. apply Hstep. by right.
Qed.

Lemma tripStops_without_tripless s trip :
  ¬ keyless "trip_id" trip →
  tripStops s trip = tripStops (without_tripless s) trip.
Proof.
  intros Htrip. unfold tripStops, without_tripless.
  cbn [with_collection st_stops st_stop_times]. f_equal.
  unfold JsMap.values.
  induction (st_stop_times s) as [|[k st] m IH]; [done|].
  rewrite fmap_cons; cbn [snd List.filter].
  destruct (decide (keyless "trip_id" st)) as [Hst|Hst].
  - rewrite (filter_cons_False (λ e : string * Row, ¬ keyless "trip_id" e.2))
      by (simpl; tauto).
    rewrite (proj2 (strict_eq_false _ _)); [done|].
    intros Heq. apply Htrip. unfold keyless, field in *.
    change (trip_id st) with (row_fields st !! "trip_id") in Heq.
    change (trip_id trip) with (row_fields trip !! "trip_id") in Heq.
    by rewrite <-Heq.
  - rewrite (filter_cons_True (λ e : string * Row, ¬ keyless "trip_id" e.2)) by done.
    rewrite fmap_cons; cbn [snd List.filter]. by rewrite IH.
Qed.

(** **** X12 — a stop time without a trip is never answered

    In the store the loader leaves, a stop time whose [trip_id] is unset
    or empty matches no trip: the stops answered for any route are the
    same as in the store from which those stop times are removed. *)
Theorem stopsForRoute_ignores_tripless
    (h : Host) (d : option Dir) (routeId : string) :
  let s := gtfsData (loadGTFSData h (boot d)).2 in
  stopsForRoute s routeId = stopsForRoute (without_tripless s) routeId.
Proof.
  intros s. apply stopsForRoute_ext_routeTrips; [done|].
  intros trip [Hin _]%elem_of_routeTrips.
  apply tripStops_without_tripless.
  apply list_elem_of_fmap_1 in Hin as ([k trip'] & -> & Hin). simpl.
  pose proof (loadGTFSData_loaded h d) as Hw. fold s in Hw.
  destruct (Hw "trips.txt" trips k trip') as [[Hk Hne] _];
    [by apply elem_of_fileMapping|done|].
  rewrite (getPrimaryKey_key_field "trips.txt" "trip_id") in Hk by done.
  unfold keyless. rewrite Hk. by intros [|[= ->]].
Qed.

(** ** The reader of the sample texts *)

(** Nothing is read after a final newline, an empty line gives a mapping
    without fields, and a short line leaves its last headers unset. *)
Example csv_lines :
  file_rows (csv ("a,b" +:+ nl +:+ "1,2" +:+ nl +:+ nl +:+ "3" +:+ nl)) =
    [ {[ "a" := "1"; "b" := "2" ]}; ∅; {[ "a" := "3" ]} ] ∧
  file_rows (csv ("a,b" +:+ nl +:+ "1,2")) = [ {[ "a" := "1"; "b" := "2" ]} ].
Proof. vm_compute. by split. Qed.
